(** * split-token-app: batching and caching of installation access tokens

    A shallow embedding of the JavaScript sources

    - [tokenBatcher.js]            (module [TokenBatcher]),
    - [batchTokenCache.js]         (module [BatchTokenCache]),
    - [getAppInstallationToken.js] (module [InstallationToken]),

    and the properties of the batch partitioner, the repository directory,
    the credential cache and the token broker.

    Numbers are integers ([Z]); times are milliseconds since the epoch.
    Object keys are repository full names ("owner/repo"): they are never
    array-index keys nor prototype property names, so a plain object
    enumerates them in insertion order. *)

From Stdlib Require Import ZArith Lia.
From stdpp Require Import base option list strings pretty gmap.

Open Scope Z_scope.

(** ** JavaScript values and control outcomes *)

Module Js.

(** What a call does: return a value, throw (or reject with) an [Error]
    carrying a message, or never come back (an unbounded loop, which the
    fuel of a loop model makes visible). *)
Inductive outcome (A : Type) : Type :=
| Return (a : A)
| Throw (message : string)
| Diverge.
Arguments Return {A} a.
Arguments Throw {A} message.
Arguments Diverge {A}.

Definition bind {A B} (m : outcome A) (k : A -> outcome B) : outcome B :=
  match m with
  | Return a => k a
  | Throw e => Throw e
  | Diverge => Diverge
  end.

Definition map {A B} (f : A -> B) (m : outcome A) : outcome B :=
  bind m (fun a => Return (f a)).

(** [ToIntegerOrInfinity] followed by the clamping of
    [Array.prototype.slice]: a negative index counts from the end. *)
Definition rel_index (len k : Z) : Z :=
  if k <? 0 then Z.max (len + k) 0 else Z.min k len.

(** [items.slice(start, end)] *)
Definition slice {A} (items : list A) (start end_ : Z) : list A :=
  let len := Z.of_nat (length items) in
  let k := rel_index len start in
  let final := rel_index len end_ in
  take (Z.to_nat (final - k)) (drop (Z.to_nat k) items).

(** [batch.includes(x)] on numbers *)
Definition includes (batch : list Z) (x : Z) : bool :=
  existsb (Z.eqb x) batch.

(** Truthiness of a number and of a string. *)
Definition truthy_num (n : Z) : bool := negb (n =? 0).
Definition truthy_str (s : string) : bool := negb (String.eqb s "").

End Js.

#[global] Instance outcome_ret : MRet Js.outcome := @Js.Return.
#[global] Instance outcome_bind : MBind Js.outcome := fun A B k m => Js.bind m k.

(** ** Plain objects used as dictionaries *)

Module Obj.

(** A plain object with string keys, as the list of its own properties in
    enumeration (insertion) order.  Assigning to an existing key keeps
    the key's place; assigning to a new key appends it. *)
Definition t (V : Type) : Type := list (string * V).

Fixpoint get {V} (o : t V) (key : string) : option V :=
  match o with
  | [] => None
  | (k, v) :: o' => if String.eqb k key then Some v else get o' key
  end.

Fixpoint set {V} (o : t V) (key : string) (v : V) : t V :=
  match o with
  | [] => [(key, v)]
  | (k, v') :: o' =>
      if String.eqb k key then (key, v) :: o' else (k, v') :: set o' key v
  end.

(** [delete o[key]] *)
Fixpoint delete {V} (o : t V) (key : string) : t V :=
  match o with
  | [] => []
  | (k, v) :: o' =>
      if String.eqb k key then delete o' key else (k, v) :: delete o' key
  end.

(** [Object.keys(o)] and [Object.values(o)] *)
Definition keys {V} (o : t V) : list string := fmap fst o.
Definition values {V} (o : t V) : list V := fmap snd o.

End Obj.

(** ** The repository directory and the provider's enumeration *)

Module Directory.
Import Js.

(** The value stored per full name: [{ id, installationId }]; the field
    [id] is written [repoId] here. *)
Record RepoInfo : Type := { repoId : Z; installationId : Z }.

#[global] Instance RepoInfo_eq_dec : EqDecision RepoInfo.
Proof. solve_decision. Defined.

Definition t : Type := Obj.t RepoInfo.

(** One element of [GET /installation/repositories]. *)
Record Repo : Type := { full_name : string; id_of : Z }.

(** What the Probot [app] answers during one enumeration:
    [app.auth()] followed by [paginate("GET /app/installations")] (the
    ids of the installations), and per installation [app.auth(inst.id)]
    followed by [paginate("GET /installation/repositories")].  Either may
    reject. *)
Record App : Type := {
  installations : outcome (list Z);
  repositories : Z -> outcome (list Repo)
}.

(** [for (const repo of repoList) cache[repo.full_name] = { id: repo.id, installationId: inst.id }] *)
Definition store_repos (inst : Z) (repoList : list Repo) (cache : t) : t :=
  foldl (fun c repo =>
           Obj.set c (full_name repo)
                   {| repoId := id_of repo; installationId := inst |})
        cache repoList.

(** [for (const inst of installations) { ... }]: the directory as the loop
    leaves it, and how the loop ends. *)
Fixpoint populate_loop (app : App) (insts : list Z) (cache : t)
    : t * outcome unit :=
  match insts with
  | [] => (cache, Return tt)
  | inst :: rest =>
      match repositories app inst with
      | Return repoList => populate_loop app rest (store_repos inst repoList cache)
      | Throw e => (cache, Throw e)
      | Diverge => (cache, Diverge)
      end
  end.

Definition populate_from (app : App) (cache : t) : t * outcome unit :=
  match installations app with
  | Return insts => populate_loop app insts cache
  | Throw e => (cache, Throw e)
  | Diverge => (cache, Diverge)
  end.

End Directory.

(** ** tokenBatcher.js *)

Module TokenBatcher.
Import Js.

(** The loop of [chunk]:
    [for (let i = 0; i < items.length; i += size) out.push(items.slice(i, i + size))].
    One unit of fuel per iteration. *)
Fixpoint chunk_loop {A} (fuel : nat) (items : list A) (size i : Z)
    (out : list (list A)) : outcome (list (list A)) :=
  if Z.of_nat (length items) <=? i then Return out
  else match fuel with
       | O => Diverge
       | S fuel' =>
           chunk_loop fuel' items size (i + size) (out ++ [slice items i (i + size)])
       end.

(** [chunk(items, size)]; the argument is an array, so the
    [Array.isArray] guard passes.  With [size >= 1] the loop runs at most
    [items.length] times. *)
Definition chunk {A} (items : list A) (size : Z) : outcome (list (list A)) :=
  chunk_loop (length items) items size 0 [].

(** [reposForBatch(sortedRepos, batchIndex, batchSize)] *)
Definition reposForBatch {A} (sortedRepos : list A) (batchIndex batchSize : Z)
    : outcome (list A) :=
  if batchIndex <? 0 then Throw "batchIndex must be >= 0"
  else Return (slice sortedRepos (batchIndex * batchSize)
                     ((batchIndex + 1) * batchSize)).

(** [populateRepoCache(app)]: the shared [repoCache] is emptied key by
    key, then rebuilt from the enumeration.  The result pairs the
    directory the call leaves behind with the call's outcome. *)
Definition populateRepoCache (app : Directory.App) (repoCache : Directory.t)
    : Directory.t * outcome unit :=
  let cleared := foldl Obj.delete repoCache (Obj.keys repoCache) in
  Directory.populate_from app cleared.

End TokenBatcher.

(** ** batchTokenCache.js *)

Module BatchTokenCache.
Import Js Directory.

Definition BATCH_SIZE : Z := 500.
Definition TOKEN_EXPIRY : Z := 60 * 60 * 1000.

(** [populateRepoIdCache(app)]: the enumeration is written into the
    module's [repoIdCache] as it stands (the logging that follows the
    loops reads the directory and changes nothing). *)
Definition populateRepoIdCache (app : App) (repoIdCache : Directory.t)
    : Directory.t * outcome unit :=
  populate_from app repoIdCache.

(** [getAllInstallationIds()]: the installation ids of the directory's
    values, collected in a [Set] (an id already in the set is not added
    again) and listed in insertion order. *)
Definition getAllInstallationIds (repoIdCache : Directory.t) : list Z :=
  foldl (fun installationIds info =>
           if bool_decide (installationId info ∈ installationIds)
           then installationIds
           else installationIds ++ [installationId info])
        [] (Obj.values repoIdCache).

(** A value of [batchTokenCache[installationId][batchIndex]]:
    [{ batch, token, expiresAt }]. *)
Record Entry : Type := { batch : list Z; token : string; expiresAt : Z }.

#[global] Instance Entry_eq_dec : EqDecision Entry.
Proof. solve_decision. Defined.

(** [batchTokenCache]: an object keyed by installation id whose values
    are (sparse) arrays indexed by batch index. *)
Abbreviation TokenCache := (gmap Z (gmap Z Entry)).

Definition not_found (repoFullName : string) : string :=
  String.append "Repo info not found for " repoFullName.

Definition getInstallationIdForRepo (repoIdCache : Directory.t)
    (repoFullName : string) : outcome Z :=
  match Obj.get repoIdCache repoFullName with
  | Some info => Return (installationId info)
  | None => Throw (not_found repoFullName)
  end.

(** [Object.values(repoIdCache).filter(info => info.installationId === installationId).map(info => info.id)] *)
Definition repoIdsOf (repoIdCache : Directory.t) (inst : Z) : list Z :=
  fmap repoId
       (filter (fun info => installationId info = inst) (Obj.values repoIdCache)).

(** [const repoId = repoIdCache[repoFullName]?.id; if (!repoId) throw ...] *)
Definition repoIdFor (repoIdCache : Directory.t) (repoFullName : string)
    : outcome Z :=
  match Obj.get repoIdCache repoFullName with
  | Some info =>
      if truthy_num (repoId info) then Return (repoId info)
      else Throw (not_found repoFullName)
  | None => Throw (not_found repoFullName)
  end.

Definition getBatchForRepoName (repoIdCache : Directory.t) (inst : Z)
    (repoFullName : string) : outcome (list Z) :=
  let repoIds := repoIdsOf repoIdCache inst in
  batches ← TokenBatcher.chunk_loop (length repoIds) repoIds BATCH_SIZE 0 [];
  repoId ← repoIdFor repoIdCache repoFullName;
  match List.find (fun batch => includes batch repoId) batches with
  | Some batch => Return batch
  | None => Throw "Repo ID not found in any batch"
  end.

(** The loop of [getBatchIndexForRepoName]; [i / BATCH_SIZE] is exact, [i]
    being a multiple of [BATCH_SIZE]. *)
Fixpoint index_loop (fuel : nat) (repoIds : list Z) (repoId i : Z) : outcome Z :=
  if Z.of_nat (length repoIds) <=? i then Throw "Repo ID not found in any batch"
  else match fuel with
       | O => Diverge
       | S fuel' =>
           let batch := slice repoIds i (i + BATCH_SIZE) in
           if includes batch repoId then Return (i / BATCH_SIZE)
           else index_loop fuel' repoIds repoId (i + BATCH_SIZE)
       end.

Definition getBatchIndexForRepoName (repoIdCache : Directory.t) (inst : Z)
    (repoFullName : string) : outcome Z :=
  let repoIds := repoIdsOf repoIdCache inst in
  repoId ← repoIdFor repoIdCache repoFullName;
  index_loop (length repoIds) repoIds repoId 0.

(** *** The broker, [getBatchTokenForRepo] *)

(** The body [POST /app/installations/{installation_id}/access_tokens]
    is sent with. *)
Record Request : Type := { installation_id : Z; repository_ids : list Z }.

(** The locals that are live across the two [await]s. *)
Record Pending : Type := {
  p_installationId : Z;
  p_batchIndex : Z;
  p_batch : list Z
}.

Inductive Lookup : Type :=
| Hit (tok : string)
| Miss (p : Pending).

(** [batchTokenCache[installationId][batchIndex]] *)
Definition entryAt (cache : TokenCache) (inst batchIndex : Z) : option Entry :=
  cache !! inst ≫= fun arr => arr !! batchIndex.

(** [batchEntry && batchEntry.token && batchEntry.expiresAt > new Date()],
    with the token the hit returns. *)
Definition cached (batchEntry : option Entry) (now : Z) : option string :=
  match batchEntry with
  | Some e =>
      if truthy_str (token e) && (now <? expiresAt e) then Some (token e)
      else None
  | None => None
  end.

(** The synchronous part of the call, up to the cache hit or the first
    [await]: the cache as it leaves it, and where it stands. *)
Definition lookup (repoIdCache : Directory.t) (cache : TokenCache) (now : Z)
    (repoFullName : string) : TokenCache * outcome Lookup :=
  match getInstallationIdForRepo repoIdCache repoFullName with
  | Return inst =>
      let cache1 :=
        match cache !! inst with
        | Some _ => cache
        | None => <[inst := ∅]> cache
        end in
      (cache1,
       batchIndex ← getBatchIndexForRepoName repoIdCache inst repoFullName;
       let batchEntry := entryAt cache1 inst batchIndex in
       batch ← getBatchForRepoName repoIdCache inst repoFullName;
       match cached batchEntry now with
       | Some tok => Return (Hit tok)
       | None => Return (Miss {| p_installationId := inst;
                                 p_batchIndex := batchIndex;
                                 p_batch := batch |})
       end)
  | Throw e => (cache, Throw e)
  | Diverge => (cache, Diverge)
  end.

(** The request a call sends once [app.auth()] has resolved. *)
Definition requestFor (p : Pending) : Request :=
  {| installation_id := p_installationId p; repository_ids := p_batch p |}.

(** The part after the response arrived with [tokenData.token = tok], at
    time [now = Date.now()]: the entry is built and stored, the token
    returned. *)
Definition store (cache : TokenCache) (p : Pending) (now : Z) (tok : string)
    : TokenCache * outcome string :=
  let batchEntry :=
    {| batch := p_batch p; token := tok; expiresAt := now + TOKEN_EXPIRY |} in
  match cache !! p_installationId p with
  | Some arr =>
      (<[p_installationId p := <[p_batchIndex p := batchEntry]> arr]> cache,
       Return tok)
  | None => (cache, Throw "Cannot set properties of undefined")
  end.

(** What the provider side does for one call that missed. *)
Inductive Provider : Type :=
| AuthRejects (message : string)     (* [app.auth()] rejects *)
| RequestRejects (message : string)  (* [appAuth.request(...)] rejects *)
| Responds (tok : string).           (* resolves with [data.token = tok] *)

(** One whole call, run without interleaving: the clock reads [now] at
    the validity check and [now + elapsed] when the response is stored.
    The result is the cache afterwards, the requests sent to the
    provider, and the call's outcome. *)
Definition getBatchTokenForRepo (provider : Provider) (elapsed : N)
    (repoIdCache : Directory.t) (cache : TokenCache) (now : Z)
    (repoFullName : string) : TokenCache * list Request * outcome string :=
  match lookup repoIdCache cache now repoFullName with
  | (cache1, Return (Hit tok)) => (cache1, [], Return tok)
  | (cache1, Return (Miss p)) =>
      match provider with
      | AuthRejects e => (cache1, [], Throw e)
      | RequestRejects e => (cache1, [requestFor p], Throw e)
      | Responds tok =>
          let '(cache2, r) := store cache1 p (now + Z.of_N elapsed) tok in
          (cache2, [requestFor p], r)
      end
  | (cache1, Throw e) => (cache1, [], Throw e)
  | (cache1, Diverge) => (cache1, [], Diverge)
  end.

End BatchTokenCache.

(** ** Overlapping broker calls on the event loop *)

Module EventLoop.
Import Js BatchTokenCache.

(** A call of [getBatchTokenForRepo] that has not returned synchronously
    is suspended at one of its two [await]s until it settles. *)
Inductive Thread : Type :=
| AwaitAuth (p : Pending)        (* at [await app.auth()] *)
| AwaitResponse (p : Pending)    (* at [await appAuth.request(...)]: request in flight *)
| Settled (r : outcome string).

Record State : Type := {
  directory : Directory.t;
  tokens : TokenCache;
  clock : Z;
  threads : list Thread;
  sent : list Request
}.

(** What the event loop runs next.  A call is named by its position in
    [threads]. *)
Inductive Event : Type :=
| Call (repoFullName : string)
| AuthResolved (tid : nat)
| AuthRejected (tid : nat) (message : string)
| Responded (tid : nat) (tok : string)
| RequestRejected (tid : nat) (message : string)
| Tick (ms : N).

Definition with_thread (st : State) (tid : nat) (t : Thread) : State :=
  {| directory := directory st; tokens := tokens st; clock := clock st;
     threads := <[tid := t]> (threads st); sent := sent st |}.

Definition step (st : State) (ev : Event) : State :=
  match ev with
  | Call name =>
      let '(cache1, r) := lookup (directory st) (tokens st) (clock st) name in
      let t := match r with
               | Return (Hit tok) => Settled (Return tok)
               | Return (Miss p) => AwaitAuth p
               | Throw e => Settled (Throw e)
               | Diverge => Settled Diverge
               end in
      {| directory := directory st; tokens := cache1; clock := clock st;
         threads := threads st ++ [t]; sent := sent st |}
  | AuthResolved tid =>
      match threads st !! tid with
      | Some (AwaitAuth p) =>
          {| directory := directory st; tokens := tokens st; clock := clock st;
             threads := <[tid := AwaitResponse p]> (threads st);
             sent := sent st ++ [requestFor p] |}
      | _ => st
      end
  | AuthRejected tid e =>
      match threads st !! tid with
      | Some (AwaitAuth p) => with_thread st tid (Settled (Throw e))
      | _ => st
      end
  | Responded tid tok =>
      match threads st !! tid with
      | Some (AwaitResponse p) =>
          let '(cache2, r) := store (tokens st) p (clock st) tok in
          {| directory := directory st; tokens := cache2; clock := clock st;
             threads := <[tid := Settled r]> (threads st); sent := sent st |}
      | _ => st
      end
  | RequestRejected tid e =>
      match threads st !! tid with
      | Some (AwaitResponse p) => with_thread st tid (Settled (Throw e))
      | _ => st
      end
  | Tick ms =>
      {| directory := directory st; tokens := tokens st;
         clock := clock st + Z.of_N ms;
         threads := threads st; sent := sent st |}
  end.

Definition run (st : State) (evs : list Event) : State := foldl step st evs.

(** Is this thread waiting for the response to a request for the key
    [(inst, batchIndex)]? *)
Definition awaits (inst batchIndex : Z) (t : Thread) : bool :=
  match t with
  | AwaitResponse p =>
      (p_installationId p =? inst) && (p_batchIndex p =? batchIndex)
  | _ => false
  end.

(** The number of provider requests in flight for a key. *)
Definition in_flight (st : State) (inst batchIndex : Z) : nat :=
  length (List.filter (awaits inst batchIndex) (threads st)).

End EventLoop.

(** ** getAppInstallationToken.js *)

Module InstallationToken.
Import Js.

(** The response payload of the provider ([token], [expires_at], ...). *)
Record TokenData : Type := { token : string; expires_at : string }.

(** What comes back for one [axios.post]: an HTTP status with a body, no
    response at all (network failure or timeout), or a failure before the
    request was sent. *)
Inductive Reply : Type :=
| Status (status : Z) (data : TokenData)
| NoResponse
| NotSent.

(** The fields of an axios error the code looks at. *)
Record AxiosError : Type := { response : option Z; request : bool }.

Inductive Settlement : Type :=
| Resolved (status : Z) (data : TokenData)
| Rejected (error : AxiosError).

Definition transient_status (s : Z) : bool :=
  includes [502; 503; 504] s.

Definition success_status (s : Z) : bool := (200 <=? s) && (s <? 300).

(** [validateStatus: s => (s >= 200 && s < 300) || [502,503,504].includes(s)] *)
Definition validateStatus (s : Z) : bool :=
  success_status s || transient_status s.

Definition axios_post (reply : Reply) : Settlement :=
  match reply with
  | Status s data =>
      if validateStatus s then Resolved s data
      else Rejected {| response := Some s; request := true |}
  | NoResponse => Rejected {| response := None; request := true |}
  | NotSent => Rejected {| response := None; request := false |}
  end.

Definition isTransient (error : AxiosError) : bool :=
  match response error with
  | Some s => transient_status s
  | None => request error
  end.

(** The retry loop of [requestInstallationAccessToken]; [replies k] is the
    provider's answer to attempt [k].  [None] stands for [undefined], the
    value of a call that falls off the end of the function.  The waits
    between attempts only let time pass. *)
Fixpoint request_loop (fuel : nat) (replies : Z -> Reply)
    (maxAttempts attempt : Z) : outcome (option TokenData) :=
  if attempt <? maxAttempts then
    match fuel with
    | O => Diverge
    | S fuel' =>
        let attempt := attempt + 1 in
        match axios_post (replies attempt) with
        | Resolved status data =>
            if success_status status then Return (Some data)
            else if attempt <? maxAttempts
                 then request_loop fuel' replies maxAttempts attempt
                 else Return None
        | Rejected error =>
            if isTransient error && (attempt <? maxAttempts)
            then request_loop fuel' replies maxAttempts attempt
            else Return None
        end
    end
  else Return None.

(** [maxAttempts] is [TOKEN_REQUEST_RETRY_ATTEMPTS], 3 by default. *)
Definition requestInstallationAccessToken (maxAttempts : Z)
    (replies : Z -> Reply) : outcome (option TokenData) :=
  request_loop (Z.to_nat maxAttempts) replies maxAttempts 0.

Record Params : Type := {
  clientId : string;
  privatePem : string;
  installationId : Z
}.

(** The world [getAccessToken] runs in: reading the key ([fs]), signing
    ([jwt.sign]), the retry bound and the provider's replies. *)
Record Env : Type := {
  readKey : string -> outcome string;
  sign : string -> string -> outcome string;
  maxAttempts : Z;
  replies : Z -> Reply
}.

Definition validateCoreParams (ps : Params) : outcome unit :=
  if negb (truthy_str (clientId ps)) then Throw "Client ID is required"
  else if negb (truthy_str (privatePem ps)) then Throw "Private key is required"
  else if negb (truthy_num (installationId ps)) then Throw "Installation ID is required"
  else Return tt.

Definition rethrow {A} (prefix : string) (m : outcome A) : outcome A :=
  match m with
  | Throw e => Throw (String.append prefix e)
  | _ => m
  end.

Definition generateJWT (env : Env) (clientId privatePem : string) : outcome string :=
  let expirationMinutes := 9 in
  if negb (truthy_str clientId) then Throw "Client ID is required"
  else if negb (truthy_str privatePem) then Throw "Private key is required"
  else if 10 <? expirationMinutes then Throw "JWT expiration cannot exceed 10 minutes"
  else
    privateKey ← rethrow "Error reading private key: " (readKey env privatePem);
    rethrow "Error generating JWT: " (sign env clientId privateKey).

(** [getAccessToken]: the [catch] logs the error and the function then
    ends without a [return].  The request body built from [repositories]
    and [permissions] is passed on to the provider and plays no part in
    how the call ends. *)
Definition getAccessToken (env : Env) (ps : Params) : outcome (option TokenData) :=
  let body :=
    _ ← validateCoreParams ps;
    jwtToken ← generateJWT env (clientId ps) (privatePem ps);
    requestInstallationAccessToken (maxAttempts env) (replies env) in
  match body with
  | Return r => Return r
  | Throw error => Return None
  | Diverge => Diverge
  end.

End InstallationToken.

(** ** tokenBatcher.js: the functions that request tokens *)

Module BatchTokens.
Import Js InstallationToken.

(** [getBatchToken({ ..., repositories, ... })]: the two guards, then
    [getAccessToken]. *)
Definition getBatchToken (env : Env) (ps : Params) (repositories : list string)
    : outcome (option TokenData) :=
  if (length repositories =? 0)%nat
  then Throw "No repositories provided for batch token"
  else if (500 <? length repositories)%nat
  then Throw (String.append "Batch exceeds 500 repos (got "
                (String.append (pretty (length repositories)) ")"))
  else getAccessToken env ps.

(** An element of the result of [getAllBatchTokens]:
    [{ batchIndex: i, size: subset.length, ...token }]; spreading
    [undefined] adds no property. *)
Record BatchTokenResult : Type := {
  batchIndex : nat;
  size : nat;
  payload : option TokenData
}.

(** The loop of [getAllBatchTokens] from batch [i] on; [envs i] is the
    world the request for batch [i] runs in. *)
Fixpoint tokens_loop (envs : nat -> Env) (ps : Params)
    (batches : list (list string)) (i : nat) (out : list BatchTokenResult)
    : outcome (list BatchTokenResult) :=
  match batches with
  | [] => Return out
  | subset :: rest =>
      tok ← getBatchToken (envs i) ps subset;
      tokens_loop envs ps rest (S i)
        (out ++ [{| batchIndex := i; size := length subset; payload := tok |}])
  end.

Definition getAllBatchTokens (envs : nat -> Env) (ps : Params)
    (sortedRepos : list string) : outcome (list BatchTokenResult) :=
  batches ← TokenBatcher.chunk sortedRepos 500;
  tokens_loop envs ps batches 0 [].

End BatchTokens.

(** ** How one reply counts for the retry loop *)

Module Retry.
Import InstallationToken.

(** The payload a reply delivers: the body of a 2xx response. *)
Definition delivers (reply : Reply) : option TokenData :=
  match reply with
  | Status s data => if success_status s then Some data else None
  | _ => None
  end.

(** A reply after which the loop tries again while attempts remain: a
    502, 503 or 504 response, or no response at all. *)
Definition retriable (reply : Reply) : bool :=
  match reply with
  | Status s _ => transient_status s
  | NoResponse => true
  | NotSent => false
  end.

End Retry.

(** ** Properties the directory and the broker are checked against *)

Module Props.
Import Js Directory BatchTokenCache.

(** The batch and the batch index computed for a repository agree with
    the partition of the installation's id list: both calls return, the
    batch is the one found at the index, and it holds the repository's
    id. *)
Definition batch_agrees (dir : Directory.t) (inst : Z) (name : string) : Prop :=
  exists (i : Z) (b : list Z) (batches : list (list Z)) (info : RepoInfo),
    getBatchIndexForRepoName dir inst name = Return i
    /\ getBatchForRepoName dir inst name = Return b
    /\ TokenBatcher.chunk (repoIdsOf dir inst) BATCH_SIZE = Return batches
    /\ 0 <= i
    /\ batches !! Z.to_nat i = Some b
    /\ Obj.get dir name = Some info
    /\ repoId info ∈ b.

(** The repository [name] belongs to the batch with key
    [(inst, batchIndex)] of the directory. *)
Definition in_batch (dir : Directory.t) (name : string) (inst batchIndex : Z) : Prop :=
  getInstallationIdForRepo dir name = Return inst
  /\ getBatchIndexForRepoName dir inst name = Return batchIndex.

(** The full names an enumeration yields, with the value stored for each
    (the last one written wins). *)
Definition enumerated (app : App) : Directory.t :=
  (populate_from app []).1.

End Props.

(** ** Facts about [slice] and the chunking loop *)

Section SliceFacts.
Context {A : Type}.
Implicit Types (l : list A) (s e : Z).

Lemma slice_take_drop l s e :
  0 <= s -> s <= e ->
  Js.slice l s e = take (Z.to_nat (e - s)) (drop (Z.to_nat s) l).
Proof.
  intros Hs He. unfold Js.slice, Js.rel_index.
  destruct (Z.ltb_spec s 0); [lia|].
  destruct (Z.ltb_spec e 0); [lia|].
  destruct (Z_le_gt_dec s (Z.of_nat (length l))) as [Hle|Hgt].
  - rewrite (Z.min_l s) by lia.
    destruct (Z_le_gt_dec e (Z.of_nat (length l))) as [Hle'|Hgt'].
    + by rewrite (Z.min_l e) by lia.
    + rewrite (Z.min_r e) by lia.
      rewrite !take_ge; [done| |]; rewrite length_drop; lia.
  - rewrite (Z.min_r s), (Z.min_r e) by lia.
    rewrite Z.sub_diag. simpl.
    rewrite (drop_ge l (Z.to_nat s)) by lia. by rewrite take_nil.
Qed.

Lemma slice_length l s e :
  0 <= s -> s <= e ->
  Z.of_nat (length (Js.slice l s e))
  = Z.max 0 (Z.min (e - s) (Z.of_nat (length l) - s)).
Proof.
  intros Hs He. rewrite slice_take_drop by done.
  rewrite length_take, length_drop. lia.
Qed.

Lemma slice_lookup l s e (j : nat) :
  0 <= s -> s <= e -> Z.of_nat j < e - s ->
  Js.slice l s e !! j = l !! (Z.to_nat s + j)%nat.
Proof.
  intros Hs He Hj. rewrite slice_take_drop by done.
  rewrite lookup_take_lt by lia. by rewrite lookup_drop.
Qed.

End SliceFacts.

Section ChunkFacts.
Context {A : Type}.
Implicit Types (items : list A) (size i : Z).
Import Js TokenBatcher.

Lemma chunk_loop_acc fuel items size i out :
  chunk_loop fuel items size i out
  = Js.map (app out) (chunk_loop fuel items size i []).
Proof.
  revert i out. induction fuel as [|fuel IH]; intros i out; simpl.
  - destruct (_ <=? _); simpl; [by rewrite app_nil_r|done].
  - destruct (_ <=? _); simpl; [by rewrite app_nil_r|].
    rewrite (IH _ (out ++ _)), (IH _ [_]).
    destruct (chunk_loop fuel items size (i + size) []); simpl; try done.
    by rewrite <- app_assoc.
Qed.

(** With a positive size and enough fuel the loop returns; batch [k]
    counted from offset [i] is the slice that starts at [i + k * size],
    and the batches laid end to end are the input from [i] on. *)
Lemma chunk_loop_spec fuel items size i :
  1 <= size -> 0 <= i -> Z.of_nat (length items) - i <= Z.of_nat fuel ->
  exists batches,
    chunk_loop fuel items size i [] = Return batches
    /\ (forall k : nat,
          batches !! k
          = if decide (i + Z.of_nat k * size < Z.of_nat (length items))
            then Some (slice items (i + Z.of_nat k * size)
                             (i + Z.of_nat k * size + size))
            else None)
    /\ concat batches = drop (Z.to_nat i) items.
Proof.
  intros Hsize. revert i.
  assert (Hdone : forall i, 0 <= i -> Z.of_nat (length items) <= i ->
            (forall k : nat,
               ([] : list (list A)) !! k
               = if decide (i + Z.of_nat k * size < Z.of_nat (length items))
                 then Some (slice items (i + Z.of_nat k * size)
                                  (i + Z.of_nat k * size + size))
                 else None)
            /\ concat ([] : list (list A)) = drop (Z.to_nat i) items).
  { intros i Hi Hlen. split.
    - intros k. case_decide; [nia|done].
    - simpl. by rewrite drop_ge by lia. }
  induction fuel as [|fuel IH]; intros i Hi Hfuel; simpl.
  - destruct (Z.leb_spec (Z.of_nat (length items)) i); [|lia].
    exists []. split; [done|]. by apply Hdone.
  - destruct (Z.leb_spec (Z.of_nat (length items)) i) as [Hge|Hlt].
    { exists []. split; [done|]. by apply Hdone. }
    destruct (IH (i + size)) as (rest & Hrest & Hlook & Hcat); [lia|lia|].
    exists (slice items i (i + size) :: rest). split; [|split].
    + rewrite chunk_loop_acc, Hrest. done.
    + intros [|k]; simpl.
      * rewrite Z.add_0_r. case_decide; [done|lia].
      * rewrite Hlook.
        replace (i + size + Z.of_nat k * size)
          with (i + Z.of_nat (S k) * size) by lia.
        done.
    + simpl. rewrite Hcat, slice_take_drop by lia.
      replace (Z.to_nat (i + size)) with (Z.to_nat i + Z.to_nat size)%nat by lia.
      replace (i + size - i) with size by lia.
      rewrite <- drop_drop. apply take_drop.
Qed.

Lemma chunk_spec items size :
  1 <= size ->
  exists batches,
    chunk items size = Return batches
    /\ (forall k : nat,
          batches !! k
          = if decide (Z.of_nat k * size < Z.of_nat (length items))
            then Some (slice items (Z.of_nat k * size)
                             (Z.of_nat k * size + size))
            else None)
    /\ concat batches = items.
Proof.
  intros Hsize. unfold chunk.
  destruct (chunk_loop_spec (length items) items size 0) as (bs & Hbs & Hl & Hc);
    [done|done|lia|].
  exists bs. split; [done|]. split; [|done].
  intros k. rewrite Hl. done.
Qed.

(** The number of batches is the number of multiples of [size] below the
    length of the input. *)
Lemma chunk_batches_length items size batches (k : nat) :
  1 <= size ->
  (forall k : nat,
     batches !! k
     = if decide (Z.of_nat k * size < Z.of_nat (length items))
       then Some (slice items (Z.of_nat k * size) (Z.of_nat k * size + size))
       else None) ->
  (k < length batches)%nat <-> Z.of_nat k * size < Z.of_nat (length items).
Proof.
  intros Hsize Hl. rewrite <- lookup_lt_is_Some, Hl.
  case_decide; split; intros Hk; try done; try lia.
Qed.

End ChunkFacts.

(** ** The batch partitioner *)

Section Partitioner.
Context {A : Type}.
Implicit Types (orderedIds : list A) (batchSize : Z) (batches : list (list A)).
Import Js TokenBatcher.

Example chunk_7_by_3 :
  chunk [1; 2; 3; 4; 5; 6; 7] 3 = Return [[1; 2; 3]; [4; 5; 6]; [7]].
Proof. reflexivity. Qed.

Example chunk_size_0_loops : chunk [1; 2] 0 = Diverge.
Proof. reflexivity. Qed.

(** Member [j] of batch [k] is the input's element at position
    [k * batchSize + j], and [j] is below [batchSize]. *)
Lemma chunk_member orderedIds batchSize batches (k j : nat) b :
  1 <= batchSize ->
  (forall k : nat,
     batches !! k
     = if decide (Z.of_nat k * batchSize < Z.of_nat (length orderedIds))
       then Some (slice orderedIds (Z.of_nat k * batchSize)
                        (Z.of_nat k * batchSize + batchSize))
       else None) ->
  batches !! k = Some b -> (j < length b)%nat ->
  Z.of_nat j < batchSize
  /\ b !! j = orderedIds !! Z.to_nat (Z.of_nat k * batchSize + Z.of_nat j).
Proof.
  intros Hsize Hl Hk Hj. rewrite Hl in Hk. case_decide; [|done].
  injection Hk as <-.
  assert (Z.of_nat j < batchSize) as Hlt.
  { apply Nat2Z.inj_lt in Hj. rewrite slice_length in Hj by lia. lia. }
  split; [done|]. rewrite slice_lookup by lia. f_equal. lia.
Qed.

(** C5. For every list [orderedIds] and every [batchSize >= 1], [chunk]
    returns batches whose concatenation is the input; member [j] of batch
    [k] is the input's element at position [k * batchSize + j], every
    position of the input is held by some batch, and no position is held
    twice (by two batches, or twice by one). *)
Theorem chunk_covers_each_once orderedIds batchSize :
  1 <= batchSize ->
  exists batches,
    chunk orderedIds batchSize = Return batches
    /\ concat batches = orderedIds
    /\ (forall (k j : nat) b,
          batches !! k = Some b -> (j < length b)%nat ->
          b !! j = orderedIds !! Z.to_nat (Z.of_nat k * batchSize + Z.of_nat j))
    /\ (forall p : nat,
          (p < length orderedIds)%nat ->
          exists (k j : nat) b,
            batches !! k = Some b /\ (j < length b)%nat
            /\ Z.of_nat k * batchSize + Z.of_nat j = Z.of_nat p)
    /\ (forall (k j k' j' : nat) b b',
          batches !! k = Some b -> (j < length b)%nat ->
          batches !! k' = Some b' -> (j' < length b')%nat ->
          Z.of_nat k * batchSize + Z.of_nat j
          = Z.of_nat k' * batchSize + Z.of_nat j' ->
          k = k' /\ j = j').
Proof.
  intros Hsize.
  destruct (chunk_spec orderedIds batchSize Hsize) as (batches & Hc & Hl & Hcat).
  exists batches. split; [done|]. split; [done|]. split; [|split].
  - intros k j b Hk Hj. by eapply chunk_member.
  - intros p Hp.
    set (k := Z.to_nat (Z.of_nat p / batchSize)).
    set (j := Z.to_nat (Z.of_nat p mod batchSize)).
    pose proof (Z.div_mod (Z.of_nat p) batchSize ltac:(lia)) as Hdm.
    pose proof (Z.mod_pos_bound (Z.of_nat p) batchSize ltac:(lia)) as Hmod.
    pose proof (Z.div_pos (Z.of_nat p) batchSize ltac:(lia) ltac:(lia)) as Hdiv.
    assert (Hkz : Z.of_nat k * batchSize <= Z.of_nat p) by (unfold k; nia).
    exists k, j, (slice orderedIds (Z.of_nat k * batchSize)
                       (Z.of_nat k * batchSize + batchSize)).
    split; [|split].
    + rewrite Hl. case_decide; [done|lia].
    + apply Nat2Z.inj_lt. rewrite slice_length by lia. unfold j, k in *. nia.
    + unfold j, k. nia.
  - intros k j k' j' b b' Hk Hj Hk' Hj' Heq.
    destruct (chunk_member _ _ _ _ _ _ Hsize Hl Hk Hj) as [Hjb _].
    destruct (chunk_member _ _ _ _ _ _ Hsize Hl Hk' Hj') as [Hjb' _].
    assert (k = k') as -> by nia. split; [done|lia].
Qed.

(** C6. For a non-empty input and [batchSize >= 1], [chunk] returns at
    least one batch; every batch but the last has exactly [batchSize]
    members, the last has between 1 and [batchSize], and none is empty. *)
Theorem chunk_batch_sizes orderedIds batchSize :
  orderedIds <> [] -> 1 <= batchSize ->
  exists batches,
    chunk orderedIds batchSize = Return batches
    /\ batches <> []
    /\ (forall (k : nat) b,
          batches !! k = Some b ->
          ((S k < length batches)%nat -> Z.of_nat (length b) = batchSize)
          /\ (S k = length batches ->
              1 <= Z.of_nat (length b) <= batchSize)
          /\ b <> []).
Proof.
  intros Hne Hsize.
  destruct (chunk_spec orderedIds batchSize Hsize) as (batches & Hc & Hl & Hcat).
  exists batches. split; [done|].
  assert (0 < length orderedIds)%nat as Hlen
    by (destruct orderedIds; [done|simpl; lia]).
  split.
  - intros ->. specialize (Hl 0%nat). simpl in Hl.
    case_decide; [done|lia].
  - intros k b Hk.
    pose proof (chunk_batches_length orderedIds batchSize batches (S k) Hsize Hl)
      as Hnext.
    rewrite Hl in Hk. case_decide as Hin; [|done]. injection Hk as <-.
    assert (Hlb := slice_length orderedIds (Z.of_nat k * batchSize)
                     (Z.of_nat k * batchSize + batchSize) ltac:(lia) ltac:(lia)).
    split; [|split].
    + intros Hlt. apply Hnext in Hlt. lia.
    + intros Heq.
      assert (~ (S k < length batches)%nat) as Hnlt by lia.
      rewrite Hnext in Hnlt. lia.
    + intros Hnil. rewrite Hnil in Hlb. simpl in Hlb. lia.
Qed.

Example reposForBatch_1_of_7_by_3 :
  reposForBatch [1; 2; 3; 4; 5; 6; 7] 1 3 = Return [4; 5; 6].
Proof. reflexivity. Qed.

(** C10. For every list, every [batchSize >= 1] and every index [i >= 0],
    [reposForBatch] returns batch [i] of [chunk] when there is one and the
    empty list when [i] is at or past the number of batches; for every
    [i < 0] it throws. *)
Theorem reposForBatch_agrees_with_chunk orderedIds batchSize :
  1 <= batchSize ->
  exists batches,
    chunk orderedIds batchSize = Return batches
    /\ (forall i b,
          0 <= i -> batches !! Z.to_nat i = Some b ->
          reposForBatch orderedIds i batchSize = Return b)
    /\ (forall i,
          0 <= i -> Z.of_nat (length batches) <= i ->
          reposForBatch orderedIds i batchSize = Return [])
    /\ (forall i,
          i < 0 ->
          reposForBatch orderedIds i batchSize = Throw "batchIndex must be >= 0").
Proof.
  intros Hsize.
  destruct (chunk_spec orderedIds batchSize Hsize) as (batches & Hc & Hl & Hcat).
  exists batches. split; [done|]. split; [|split].
  - intros i b Hi Hb. unfold reposForBatch.
    destruct (Z.ltb_spec i 0); [lia|].
    rewrite Hl, Z2Nat.id in Hb by done. case_decide; [|done].
    injection Hb as <-. do 2 f_equal. lia.
  - intros i Hi Hge. unfold reposForBatch.
    destruct (Z.ltb_spec i 0); [lia|]. f_equal.
    assert (~ (Z.to_nat i < length batches)%nat) as Hnlt by lia.
    rewrite (chunk_batches_length orderedIds batchSize batches _ Hsize Hl) in Hnlt.
    rewrite Z2Nat.id in Hnlt by done.
    apply length_zero_iff_nil, Nat2Z.inj. rewrite slice_length by nia. lia.
  - intros i Hi. unfold reposForBatch.
    destruct (Z.ltb_spec i 0); [done|lia].
Qed.

End Partitioner.

Lemma chunk_covers_each_once_witness :
  exists batches,
    TokenBatcher.chunk [1; 2; 3; 4; 5; 6; 7] 3 = Js.Return batches
    /\ concat batches = [1; 2; 3; 4; 5; 6; 7].
Proof.
  destruct (chunk_covers_each_once [1; 2; 3; 4; 5; 6; 7] 3) as (batches & Hc & Hcat & _).
  - lia.
  - exists batches. split; [exact Hc|exact Hcat].
Defined.

Lemma chunk_batch_sizes_witness :
  exists batches,
    TokenBatcher.chunk [1; 2; 3; 4; 5; 6; 7] 3 = Js.Return batches
    /\ batches <> [].
Proof.
  destruct (chunk_batch_sizes [1; 2; 3; 4; 5; 6; 7] 3) as (batches & Hc & Hne & _).
  - discriminate.
  - lia.
  - exists batches. split; [exact Hc|exact Hne].
Defined.

Lemma reposForBatch_agrees_with_chunk_witness :
  exists batches,
    TokenBatcher.chunk [1; 2; 3; 4; 5; 6; 7] 3 = Js.Return batches
    /\ forall i, i < 0 ->
         TokenBatcher.reposForBatch [1; 2; 3; 4; 5; 6; 7] i 3
         = Js.Throw "batchIndex must be >= 0".
Proof.
  destruct (reposForBatch_agrees_with_chunk [1; 2; 3; 4; 5; 6; 7] 3)
    as (batches & Hc & _ & _ & Hneg).
  - lia.
  - exists batches. split; [exact Hc|exact Hneg].
Defined.

(** ** Objects *)

Section ObjFacts.
Context {V : Type}.
Implicit Types (o : Obj.t V) (k : string) (v : V).

Lemma obj_get_values o k v : Obj.get o k = Some v -> v ∈ Obj.values o.
Proof.
  induction o as [|[k' v'] o IH]; simpl; [done|].
  destruct (String.eqb k' k).
  - intros [= ->]. apply list_elem_of_here.
  - intros H. apply list_elem_of_further. by apply IH.
Qed.

Lemma obj_get_set_eq o k v : Obj.get (Obj.set o k v) k = Some v.
Proof.
  induction o as [|[k' v'] o IH]; simpl.
  - by rewrite String.eqb_refl.
  - destruct (String.eqb k' k) eqn:E; simpl.
    + by rewrite String.eqb_refl.
    + by rewrite E.
Qed.

Lemma obj_get_set_ne o k k' v : k <> k' -> Obj.get (Obj.set o k v) k' = Obj.get o k'.
Proof.
  intros Hne. induction o as [|[k0 v0] o IH]; simpl.
  - destruct (String.eqb_spec k k'); done.
  - destruct (String.eqb_spec k0 k) as [->|]; simpl.
    + destruct (String.eqb_spec k k'); done.
    + destruct (String.eqb_spec k0 k'); done.
Qed.

Lemma obj_get_delete_ne o k k' : k <> k' -> Obj.get (Obj.delete o k) k' = Obj.get o k'.
Proof.
  intros Hne. induction o as [|[k0 v0] o IH]; simpl; [done|].
  destruct (String.eqb_spec k0 k) as [->|]; simpl.
  - destruct (String.eqb_spec k k'); done.
  - destruct (String.eqb_spec k0 k'); done.
Qed.

Lemma obj_get_delete_eq o k : Obj.get (Obj.delete o k) k = None.
Proof.
  induction o as [|[k0 v0] o IH]; simpl; [done|].
  destruct (String.eqb_spec k0 k) as [->|]; simpl; [done|].
  destruct (String.eqb_spec k0 k); done.
Qed.

Lemma obj_get_None o k : k ∉ Obj.keys o -> Obj.get o k = None.
Proof.
  induction o as [|[k0 v0] o IH]; simpl; [done|].
  intros Hn. apply not_elem_of_cons in Hn as [Hne Hn].
  destruct (String.eqb_spec k0 k); [done|]. by apply IH.
Qed.

Lemma obj_get_Some_key o k v : Obj.get o k = Some v -> k ∈ Obj.keys o.
Proof.
  intros H. destruct (decide (k ∈ Obj.keys o)) as [|Hn]; [done|].
  by rewrite (obj_get_None _ _ Hn) in H.
Qed.

(** Deleting every key, in any order and with repetitions, empties the
    lookups of those keys. *)
Lemma obj_get_delete_all o ks k :
  Obj.get (foldl Obj.delete o ks) k = if decide (k ∈ ks) then None else Obj.get o k.
Proof.
  revert o. induction ks as [|k0 ks IH]; intros o; simpl.
  - destruct (decide (k ∈ [])) as [H|H]; [by apply elem_of_nil in H|done].
  - rewrite IH. destruct (decide (k ∈ ks)) as [Hin|Hnin].
    + rewrite decide_True; [done|by apply list_elem_of_further].
    + destruct (decide (k0 = k)) as [->|Hne].
      * rewrite decide_True by apply list_elem_of_here. apply obj_get_delete_eq.
      * rewrite decide_False; [by apply obj_get_delete_ne|].
        intros [?|?]%elem_of_cons; congruence.
Qed.

Lemma obj_clear o k : Obj.get (foldl Obj.delete o (Obj.keys o)) k = None.
Proof.
  rewrite obj_get_delete_all. case_decide as Hn; [done|].
  by apply obj_get_None.
Qed.

End ObjFacts.

(** ** Batch lookup in the broker *)

Section BatchLookup.
Import Js Directory TokenBatcher BatchTokenCache.
Implicit Types (repoIds : list Z) (dir : Directory.t).

Lemma includes_elem_of (b : list Z) x : includes b x = true <-> x ∈ b.
Proof.
  unfold includes. rewrite existsb_exists. split.
  - intros (y & Hy & ->%Z.eqb_eq). by apply list_elem_of_In.
  - intros H. exists x. split; [by apply list_elem_of_In|apply Z.eqb_refl].
Qed.

Lemma BATCH_SIZE_pos : 1 <= BATCH_SIZE.
Proof. unfold BATCH_SIZE. lia. Qed.

(** The index loop and the search through the batches walk the same
    slices: either both stop at the first batch that includes the id, or
    neither finds one. *)
Lemma index_loop_find fuel repoIds x (k0 : nat) :
  Z.of_nat (length repoIds) - Z.of_nat k0 * BATCH_SIZE <= Z.of_nat fuel ->
  exists batches,
    chunk_loop fuel repoIds BATCH_SIZE (Z.of_nat k0 * BATCH_SIZE) [] = Return batches
    /\ ((exists (j : nat) b,
           index_loop fuel repoIds x (Z.of_nat k0 * BATCH_SIZE)
           = Return (Z.of_nat (k0 + j))
           /\ List.find (fun batch => includes batch x) batches = Some b
           /\ batches !! j = Some b /\ x ∈ b)
        \/ (index_loop fuel repoIds x (Z.of_nat k0 * BATCH_SIZE)
            = Throw "Repo ID not found in any batch"
            /\ List.find (fun batch => includes batch x) batches = None
            /\ forall b, b ∈ batches -> x ∉ b)).
Proof.
  pose proof BATCH_SIZE_pos as HB.
  revert k0. induction fuel as [|fuel IH]; intros k0 Hfuel; simpl.
  - destruct (Z.leb_spec (Z.of_nat (length repoIds)) (Z.of_nat k0 * BATCH_SIZE)); [|lia].
    exists []. split; [done|]. right. split_and!; [done..|].
    intros b Hb. by apply elem_of_nil in Hb.
  - destruct (Z.leb_spec (Z.of_nat (length repoIds)) (Z.of_nat k0 * BATCH_SIZE)).
    { exists []. split; [done|]. right. split_and!; [done..|].
      intros b Hb. by apply elem_of_nil in Hb. }
    destruct (IH (S k0)) as (rest & Hrest & Hcases); [lia|].
    replace (Z.of_nat (S k0) * BATCH_SIZE)
      with (Z.of_nat k0 * BATCH_SIZE + BATCH_SIZE) in * by lia.
    set (i := Z.of_nat k0 * BATCH_SIZE) in *.
    exists (slice repoIds i (i + BATCH_SIZE) :: rest). split.
    { rewrite chunk_loop_acc, Hrest. done. }
    simpl. destruct (includes (slice repoIds i (i + BATCH_SIZE)) x) eqn:Hinc.
    + left. exists 0%nat, (slice repoIds i (i + BATCH_SIZE)).
      split_and!; [|done|done|by apply includes_elem_of].
      f_equal. unfold i. rewrite Z.div_mul by lia. lia.
    + destruct Hcases as [(j & b & Hi & Hf & Hj & Hb)|(Hi & Hf & Hall)].
      * left. exists (S j), b. split_and!; [|done..].
        rewrite Hi. f_equal. lia.
      * right. split_and!; [done..|].
        intros b [->|Hb]%elem_of_cons; [|by apply Hall].
        rewrite <- includes_elem_of. by rewrite Hinc.
Qed.

(** The two functions agree on every input, errors included: when the
    index function returns [i], the batch function returns batch [i] of
    the partition of the installation's id list, and that batch holds the
    id; when one throws, the other throws the same error. *)
Lemma batch_and_index dir inst name :
  exists batches,
    chunk (repoIdsOf dir inst) BATCH_SIZE = Return batches
    /\ ((exists x (j : nat) b,
           repoIdFor dir name = Return x
           /\ getBatchIndexForRepoName dir inst name = Return (Z.of_nat j)
           /\ getBatchForRepoName dir inst name = Return b
           /\ batches !! j = Some b /\ x ∈ b)
        \/ (exists e,
              getBatchIndexForRepoName dir inst name = Throw e
              /\ getBatchForRepoName dir inst name = Throw e
              /\ (repoIdFor dir name = Throw e
                  \/ exists x, repoIdFor dir name = Return x
                               /\ x ∉ repoIdsOf dir inst))).
Proof.
  set (repoIds := repoIdsOf dir inst).
  unfold getBatchIndexForRepoName, getBatchForRepoName, chunk. fold repoIds.
  destruct (chunk_loop_spec (length repoIds) repoIds BATCH_SIZE 0)
    as (batches & Hchunk & _ & Hcat); [apply BATCH_SIZE_pos|done|lia|].
  exists batches. split; [done|]. rewrite Hchunk. simpl.
  destruct (repoIdFor dir name) as [x|e|] eqn:Hid; simpl.
  - destruct (index_loop_find (length repoIds) repoIds x 0) as (bs & Hbs & Hcases);
      [lia|].
    change (Z.of_nat 0 * BATCH_SIZE) with 0 in Hbs, Hcases.
    rewrite Hchunk in Hbs. injection Hbs as <-.
    destruct Hcases as [(j & b & Hi & Hf & Hj & Hb)|(Hi & Hf & Hall)].
    + left. exists x, j, b. rewrite Hi, Hf. done.
    + right. eexists. rewrite Hi, Hf. split_and!; [done..|]. right. exists x.
      split; [done|]. change (drop (Z.to_nat 0) repoIds) with repoIds in Hcat.
      fold repoIds. rewrite <- Hcat.
      intros (b & Hb & Hxb)%list_elem_of_In%in_concat.
      apply (Hall b); by apply list_elem_of_In.
  - right. exists e. split_and!; [done..|]. by left.
  - unfold repoIdFor in Hid. destruct (Obj.get dir name) as [info|]; [|done].
    by destruct (truthy_num _).
Qed.

Lemma repoIdsOf_present dir name info :
  Obj.get dir name = Some info ->
  repoId info ∈ repoIdsOf dir (installationId info).
Proof.
  intros Hget. unfold repoIdsOf. apply list_elem_of_fmap. exists info.
  split; [done|]. apply list_elem_of_filter. split; [done|].
  by eapply obj_get_values.
Qed.

End BatchLookup.

(** ** Batch index and batch agree *)

Section Agreement.
Import Js Directory TokenBatcher BatchTokenCache Props.

Example two_installations :
  let dir := [("octo/a", {| repoId := 11; installationId := 7 |});
              ("acme/x", {| repoId := 21; installationId := 8 |});
              ("octo/b", {| repoId := 12; installationId := 7 |})] in
  repoIdsOf dir 7 = [11; 12]
  /\ getBatchIndexForRepoName dir 7 "octo/b" = Return 0
  /\ getBatchForRepoName dir 7 "octo/b" = Return [11; 12]
  /\ getBatchForRepoName dir 8 "octo/b" = Throw "Repo ID not found in any batch".
Proof. vm_compute. done. Qed.

(** C7, as stated, fails for a repository whose id is 0: the repository is
    in its installation's id list, yet the guard [if (!repoId)] makes
    both functions throw, so no batch is returned. *)
Lemma zero_id_gets_no_batch :
  let dir := [("octo/zero", {| repoId := 0; installationId := 7 |})] in
  Obj.get dir "octo/zero" = Some {| repoId := 0; installationId := 7 |}
  /\ 0 ∈ repoIdsOf dir 7
  /\ getBatchForRepoName dir 7 "octo/zero"
     = Throw "Repo info not found for octo/zero"
  /\ ~ batch_agrees dir 7 "octo/zero".
Proof.
  simpl. split_and!; [done|vm_compute; apply list_elem_of_here|done|].
  intros (i & b & batches & info & _ & Hb & _). vm_compute in Hb. done.
Qed.

(** C7 (amended). For every directory and every repository present in
    it with a non-zero id, the batch returned by [getBatchForRepoName]
    for the repository's installation is the batch at index
    [getBatchIndexForRepoName] in the partition of that installation's
    id list, and it contains the repository's id. *)
Theorem batch_index_agrees_with_partition
    (dir : Directory.t) (inst : Z) (name : string) (info : RepoInfo) :
  Obj.get dir name = Some info ->
  installationId info = inst ->
  repoId info <> 0 ->
  batch_agrees dir inst name.
Proof.
  intros Hget <- Hid.
  assert (repoIdFor dir name = Return (repoId info)) as Hfor.
  { unfold repoIdFor, truthy_num. rewrite Hget.
    destruct (Z.eqb_spec (repoId info) 0); done. }
  destruct (batch_and_index dir (installationId info) name)
    as (batches & Hchunk & [(x & j & b & Hx & Hi & Hb & Hj & Hin)|(e & _ & _ & Hno)]).
  - exists (Z.of_nat j), b, batches, info. rewrite Nat2Z.id.
    rewrite Hfor in Hx. injection Hx as <-.
    split_and!; try done. lia.
  - destruct Hno as [Hthrow|(x & Hx & Hnot)]; [congruence|].
    rewrite Hfor in Hx. injection Hx as <-.
    destruct Hnot. by apply (repoIdsOf_present dir name).
Qed.

Lemma batch_index_agrees_with_partition_witness :
  batch_agrees [("octo/a", {| repoId := 11; installationId := 7 |});
                ("octo/b", {| repoId := 12; installationId := 7 |})]
               7 "octo/b".
Proof.
  apply (batch_index_agrees_with_partition _ 7 "octo/b"
           {| repoId := 12; installationId := 7 |});
    [reflexivity|reflexivity|simpl; lia].
Defined.

End Agreement.

(** ** Scenario: one installation with 1200 repositories *)

Section Scenario.
Import Js Directory TokenBatcher BatchTokenCache Props.

Example chunk_1200_by_500 :
  Js.map (fmap length) (chunk (seq 1 1200) 500) = Return [500; 500; 200]%nat.
Proof. vm_compute. reflexivity. Qed.

(** Repositories "octo/repo-1" .. "octo/repo-1200" with ids 1 .. 1200, all
    of installation 7, in this order. *)
Example batch_of_repo_501 :
  let name (n : nat) := String.append "octo/repo-" (pretty n) in
  let dir : Directory.t :=
    (fun n => (name n, {| repoId := Z.of_nat n; installationId := 7 |}))
      <$> seq 1 1200 in
  getBatchIndexForRepoName dir 7 (name 500%nat) = Return 0
  /\ getBatchIndexForRepoName dir 7 (name 501%nat) = Return 1
  /\ getBatchIndexForRepoName dir 7 (name 1200%nat) = Return 2
  /\ Js.map length (getBatchForRepoName dir 7 (name 1200%nat)) = Return 200%nat
  /\ getBatchIndexForRepoName dir 7 (name 1201%nat)
     = Throw "Repo info not found for octo/repo-1201".
Proof. vm_compute. split_and!; reflexivity. Qed.

End Scenario.

(** ** The token broker, one call at a time *)

Section Broker.
Import Js Directory TokenBatcher BatchTokenCache Props.
Implicit Types (dir : Directory.t) (cache : TokenCache) (e : Entry).

Lemma entryAt_Some_inner cache inst idx e :
  entryAt cache inst idx = Some e ->
  exists arr, cache !! inst = Some arr /\ arr !! idx = Some e.
Proof.
  unfold entryAt. destruct (cache !! inst) as [arr|]; simpl; [|done].
  intros H. by exists arr.
Qed.

(** The synchronous part of a call for a repository of the batch
    [(inst, idx)], when the installation already has its array of
    entries: the cache is left as it is, and the call either hits or
    goes on with the batch computed from the directory. *)
Lemma lookup_in_batch dir cache now name inst idx arr :
  in_batch dir name inst idx ->
  cache !! inst = Some arr ->
  exists b,
    getBatchForRepoName dir inst name = Return b
    /\ lookup dir cache now name
       = (cache,
          match cached (arr !! idx) now with
          | Some tok => Return (Hit tok)
          | None => Return (Miss {| p_installationId := inst;
                                    p_batchIndex := idx;
                                    p_batch := b |})
          end).
Proof.
  intros [Hinst Hidx] Harr.
  destruct (batch_and_index dir inst name)
    as (batches & _ & [(x & j & b & _ & Hi & Hb & _)|(err & Hi & _)]);
    [|congruence].
  exists b. split; [done|].
  unfold lookup. rewrite Hinst, Harr, Hidx, Hb. simpl.
  unfold entryAt. rewrite Harr. simpl.
  by destruct (cached (arr !! idx) now).
Qed.

(** C4. For every full name absent from the directory, the call fails
    with the error "Repo info not found for <name>", sends no request to
    the provider and leaves the cache as it was, whatever the provider
    would have answered. *)
Theorem unknown_repository_fails_without_request
    (provider : Provider) (elapsed : N) dir cache (now : Z) (name : string) :
  Obj.get dir name = None ->
  getBatchTokenForRepo provider elapsed dir cache now name
  = (cache, [], Throw (not_found name)).
Proof.
  intros Hnone. unfold getBatchTokenForRepo, lookup, getInstallationIdForRepo.
  by rewrite Hnone.
Qed.

Lemma unknown_repository_fails_without_request_witness :
  getBatchTokenForRepo (Responds "ghs_1") 0
    [("octo/a", {| repoId := 11; installationId := 7 |})] ∅ 5
    "ghost-org/ghost-repo"
  = (∅, [], Throw "Repo info not found for ghost-org/ghost-repo").
Proof.
  apply (unknown_repository_fails_without_request (Responds "ghs_1") 0
           [("octo/a", {| repoId := 11; installationId := 7 |})] ∅ 5
           "ghost-org/ghost-repo").
  reflexivity.
Defined.

(** C2, as stated, fails for a cached entry whose token is empty: the
    first call stores the provider's (empty) token with an expiry one
    hour ahead; a second call one millisecond later finds the entry
    unexpired but, its token being falsy, asks the provider again and
    returns a different value. *)
Lemma empty_token_entry_is_requested_again :
  let dir := [("octo/a", {| repoId := 11; installationId := 7 |})] in
  let first := getBatchTokenForRepo (Responds "") 0 dir ∅ 0 "octo/a" in
  let cache := first.1.1 in
  let second := getBatchTokenForRepo (Responds "ghs_2") 0 dir cache 1 "octo/a" in
  in_batch dir "octo/a" 7 0
  /\ entryAt cache 7 0
     = Some {| batch := [11]; token := ""; expiresAt := 3600000 |}
  /\ 1 < 3600000
  /\ second.1.2 = [{| installation_id := 7; repository_ids := [11] |}]
  /\ second.2 = Return "ghs_2".
Proof. vm_compute. split_and!; done. Qed.

(** C2 (amended). For every key [(inst, idx)] with a cached entry whose
    token is non-empty and which is unexpired at time [T], every call for
    a repository of that batch at a time [T'] with
    [T <= T' < expiresAt] returns the cached token, sends no request to
    the provider and leaves the cache unchanged. *)
Theorem valid_entry_is_served_from_cache
    (provider : Provider) (elapsed : N) dir cache (inst idx : Z) e
    (T T' : Z) (name : string) :
  entryAt cache inst idx = Some e ->
  token e <> "" ->
  T < expiresAt e ->
  T <= T' < expiresAt e ->
  in_batch dir name inst idx ->
  getBatchTokenForRepo provider elapsed dir cache T' name
  = (cache, [], Return (token e)).
Proof.
  intros (arr & Harr & He)%entryAt_Some_inner Htok _ [_ HT'] Hin.
  destruct (lookup_in_batch dir cache T' name inst idx arr Hin Harr)
    as (b & _ & Hlook).
  unfold getBatchTokenForRepo. rewrite Hlook, He. simpl.
  unfold truthy_str. destruct (String.eqb_spec (token e) ""); [done|].
  destruct (Z.ltb_spec T' (expiresAt e)); [done|lia].
Qed.

Lemma valid_entry_is_served_from_cache_witness :
  getBatchTokenForRepo (Responds "ghs_2") 0
    [("octo/a", {| repoId := 11; installationId := 7 |});
     ("octo/b", {| repoId := 12; installationId := 7 |})]
    {[ 7 := {[ 0 := {| batch := [11; 12]; token := "ghs_1"; expiresAt := 3600000 |} ]} ]}
    10 "octo/b"
  = ({[ 7 := {[ 0 := {| batch := [11; 12]; token := "ghs_1"; expiresAt := 3600000 |} ]} ]},
     [], Return "ghs_1").
Proof.
  apply (valid_entry_is_served_from_cache (Responds "ghs_2") 0 _ _ 7 0
           {| batch := [11; 12]; token := "ghs_1"; expiresAt := 3600000 |}
           5 10 "octo/b").
  - reflexivity.
  - discriminate.
  - simpl; lia.
  - simpl; lia.
  - split; reflexivity.
Defined.

End Broker.

(** ** Expired entries *)

Section Expiry.
Import Js Directory TokenBatcher BatchTokenCache Props.
Implicit Types (dir : Directory.t) (cache : TokenCache) (e : Entry).

Lemma TOKEN_EXPIRY_pos : 0 < TOKEN_EXPIRY.
Proof. unfold TOKEN_EXPIRY. lia. Qed.

Lemma cached_expired e now : expiresAt e <= now -> cached (Some e) now = None.
Proof.
  intros H. simpl. destruct (Z.ltb_spec now (expiresAt e)); [lia|].
  by rewrite andb_false_r.
Qed.

Lemma entryAt_insert cache inst idx arr e i j :
  entryAt (<[inst := <[idx := e]> arr]> cache) i j
  = if decide (i = inst)
    then (if decide (j = idx) then Some e else arr !! j)
    else entryAt cache i j.
Proof.
  unfold entryAt. destruct (decide (i = inst)) as [->|Hne].
  - rewrite lookup_insert_eq. simpl. destruct (decide (j = idx)) as [->|Hne].
    + by rewrite lookup_insert_eq.
    + by rewrite lookup_insert_ne.
  - by rewrite lookup_insert_ne.
Qed.

(** C1, as stated, fails when the provider rejects the request: the
    entry is expired, the call sends its request, the rejection
    propagates, and the expired entry stays in the cache. *)
Lemma rejected_request_keeps_expired_entry :
  let dir := [("octo/a", {| repoId := 11; installationId := 7 |})] in
  let old := {| batch := [11]; token := "ghs_old"; expiresAt := 1000 |} in
  let cache : TokenCache := {[ 7 := {[ 0 := old ]} ]} in
  let call := getBatchTokenForRepo (RequestRejects "503") 20 dir cache 2000 "octo/a" in
  in_batch dir "octo/a" 7 0
  /\ entryAt cache 7 0 = Some old
  /\ expiresAt old <= 2000
  /\ call.1.2 = [{| installation_id := 7; repository_ids := [11] |}]
  /\ call.2 = Throw "503"
  /\ entryAt call.1.1 7 0 = Some old.
Proof. vm_compute. split_and!; done. Qed.

(** C1 (amended). For every cached entry for a key [(inst, idx)] whose
    [expiresAt] is at or before the current time, the next call for any
    repository of that batch sends at most one request to the provider.
    When the provider responds, exactly one request was sent (for the
    batch as the directory gives it), the call returns the new token,
    the entry for the key is replaced as a whole (batch, token, expiry),
    the new [expiresAt] is strictly later than the old one, and no other
    key changes.  When the request is rejected, one request was sent, the
    rejection propagates and the cache is unchanged; when the app
    authentication is rejected, no request is sent. *)
Theorem expired_entry_is_renewed
    dir cache (inst idx : Z) (old : Entry) (now : Z) (name : string) (elapsed : N) :
  entryAt cache inst idx = Some old ->
  expiresAt old <= now ->
  in_batch dir name inst idx ->
  exists b,
    getBatchForRepoName dir inst name = Return b
    /\ (forall tok,
          let new := {| batch := b; token := tok;
                        expiresAt := now + Z.of_N elapsed + TOKEN_EXPIRY |} in
          exists cache',
            getBatchTokenForRepo (Responds tok) elapsed dir cache now name
            = (cache', [{| installation_id := inst; repository_ids := b |}],
               Return tok)
            /\ entryAt cache' inst idx = Some new
            /\ expiresAt old < expiresAt new
            /\ (forall i j, (i, j) <> (inst, idx) ->
                            entryAt cache' i j = entryAt cache i j))
    /\ (forall err,
          getBatchTokenForRepo (RequestRejects err) elapsed dir cache now name
          = (cache, [{| installation_id := inst; repository_ids := b |}],
             Throw err))
    /\ (forall err,
          getBatchTokenForRepo (AuthRejects err) elapsed dir cache now name
          = (cache, [], Throw err)).
Proof.
  intros Hold Hexp Hin.
  destruct (entryAt_Some_inner _ _ _ _ Hold) as (arr & Harr & He).
  destruct (lookup_in_batch dir cache now name inst idx arr Hin Harr)
    as (b & Hb & Hlook).
  rewrite He, cached_expired in Hlook by done.
  exists b. split; [done|]. unfold getBatchTokenForRepo. rewrite Hlook.
  split_and!; [|done..].
  intros tok. unfold store, requestFor. simpl. rewrite Harr.
  eexists. split; [reflexivity|]. split_and!.
  - rewrite entryAt_insert. by rewrite !decide_True.
  - simpl. pose proof TOKEN_EXPIRY_pos. lia.
  - intros i j Hne. rewrite entryAt_insert.
    destruct (decide (i = inst)) as [->|]; [|done].
    destruct (decide (j = idx)) as [->|]; [done|].
    unfold entryAt. by rewrite Harr.
Qed.

Lemma expired_entry_is_renewed_witness :
  exists b cache',
    getBatchForRepoName [("octo/a", {| repoId := 11; installationId := 7 |})] 7 "octo/a"
    = Return b
    /\ getBatchTokenForRepo (Responds "ghs_new") 20
         [("octo/a", {| repoId := 11; installationId := 7 |})]
         {[ 7 := {[ 0 := {| batch := [11]; token := "ghs_old"; expiresAt := 1000 |} ]} ]}
         2000 "octo/a"
       = (cache', [{| installation_id := 7; repository_ids := b |}], Return "ghs_new")
    /\ entryAt cache' 7 0
       = Some {| batch := b; token := "ghs_new";
                 expiresAt := 2000 + Z.of_N 20 + TOKEN_EXPIRY |}.
Proof.
  destruct (expired_entry_is_renewed
              [("octo/a", {| repoId := 11; installationId := 7 |})]
              {[ 7 := {[ 0 := {| batch := [11]; token := "ghs_old"; expiresAt := 1000 |} ]} ]}
              7 0 {| batch := [11]; token := "ghs_old"; expiresAt := 1000 |}
              2000 "octo/a" 20)
    as (b & Hb & Hresp & _).
  - reflexivity.
  - simpl; lia.
  - split; reflexivity.
  - destruct (Hresp "ghs_new") as (cache' & Hcall & Hentry & _).
    exists b, cache'. split; [exact Hb|]. split; [exact Hcall|exact Hentry].
Defined.

Example renewal_after_expiry :
  let dir := [("octo/a", {| repoId := 11; installationId := 7 |})] in
  let cache : TokenCache :=
    {[ 7 := {[ 0 := {| batch := [11]; token := "ghs_old"; expiresAt := 1000 |} ]} ]} in
  let call := getBatchTokenForRepo (Responds "ghs_new") 20 dir cache 2000 "octo/a" in
  call.2 = Return "ghs_new"
  /\ entryAt call.1.1 7 0
     = Some {| batch := [11]; token := "ghs_new"; expiresAt := 3602020 |}.
Proof. vm_compute. done. Qed.

End Expiry.

(** ** Refreshing the directory *)

Section Refresh.
Import Js Directory TokenBatcher BatchTokenCache Props.
Implicit Types (dir cache : Directory.t) (app : App).

Lemma obj_all_None_nil {V} (o : Obj.t V) : (forall k, Obj.get o k = None) -> o = [].
Proof.
  destruct o as [|[k v] o]; [done|]. intros H. specialize (H k).
  simpl in H. by rewrite String.eqb_refl in H.
Qed.

(** [populateRepoCache] starts from an empty directory whatever the
    directory held before. *)
Lemma populateRepoCache_from_empty app cache :
  populateRepoCache app cache = populate_from app [].
Proof.
  unfold populateRepoCache. f_equal. apply obj_all_None_nil.
  intros k. apply obj_clear.
Qed.

(** After a completed [populateRepoCache] the directory holds exactly
    what the enumeration yields: an entry that was there before and is
    not enumerated is gone. *)
Lemma populateRepoCache_replaces_wholesale app cache cache' :
  populateRepoCache app cache = (cache', Return tt) ->
  cache' = enumerated app.
Proof.
  rewrite populateRepoCache_from_empty. unfold enumerated. by intros ->.
Qed.

Example populateRepoCache_drops_stale_entry :
  let app := {| installations := Return [7];
                repositories := fun _ => Return [{| full_name := "octo/new"; id_of := 12 |}] |} in
  populateRepoCache app [("octo/gone", {| repoId := 11; installationId := 7 |})]
  = ([("octo/new", {| repoId := 12; installationId := 7 |})], Return tt).
Proof. reflexivity. Qed.

(** C8 at a failing input.  The directory holds "octo/gone"; the
    enumeration completes and yields only "octo/new".  After
    [populateRepoIdCache] the directory still holds "octo/gone", where
    [populateRepoCache] on the same input leaves exactly the enumerated
    repository. *)
Theorem populateRepoIdCache_keeps_stale_entry :
  let app := {| installations := Return [7];
                repositories := fun _ => Return [{| full_name := "octo/new"; id_of := 12 |}] |} in
  let before := [("octo/gone", {| repoId := 11; installationId := 7 |})] in
  enumerated app = [("octo/new", {| repoId := 12; installationId := 7 |})]
  /\ populateRepoIdCache app before
     = ([("octo/gone", {| repoId := 11; installationId := 7 |});
         ("octo/new", {| repoId := 12; installationId := 7 |})], Return tt)
  /\ Obj.get (populateRepoIdCache app before).1 "octo/gone"
     = Some {| repoId := 11; installationId := 7 |}
  /\ Obj.get (populateRepoCache app before).1 "octo/gone" = None.
Proof. vm_compute. done. Qed.

End Refresh.

(** ** Errors of the installation token request *)

Section Swallowed.
Import Js InstallationToken.

(** Whatever happens, [getAccessToken] does not reject: every error is
    caught and logged. *)
Lemma getAccessToken_never_throws env ps message :
  getAccessToken env ps <> Throw message.
Proof.
  unfold getAccessToken.
  by destruct (_ ← validateCoreParams ps; _).
Qed.

Lemma request_loop_never_throws fuel replies maxAttempts attempt message :
  request_loop fuel replies maxAttempts attempt <> Throw message.
Proof.
  revert attempt. induction fuel as [|fuel IH]; intros attempt; simpl.
  - by destruct (_ <? _).
  - destruct (_ <? _); [|done].
    destruct (axios_post _) as [status data|error].
    + destruct (success_status status); [done|].
      destruct (_ <? _); [apply IH|done].
    + destruct (_ && _); [apply IH|done].
Qed.

(** A reply with a status outside 2xx ends [requestInstallationAccessToken]
    with [undefined] as soon as it is not transient. *)
Example not_found_reply_gives_undefined :
  requestInstallationAccessToken 3
    (fun _ => Status 404 {| token := ""; expires_at := "" |})
  = Return None.
Proof. reflexivity. Qed.

Example transient_replies_give_undefined_after_3_attempts :
  requestInstallationAccessToken 3
    (fun _ => Status 503 {| token := ""; expires_at := "" |})
  = Return None.
Proof. reflexivity. Qed.

Example second_attempt_succeeds :
  requestInstallationAccessToken 3
    (fun k => if k =? 1 then NoResponse
              else Status 201 {| token := "ghs_1"; expires_at := "2026" |})
  = Return (Some {| token := "ghs_1"; expires_at := "2026" |}).
Proof. reflexivity. Qed.

(** C3 at a failing input.  The parameters are valid and the JWT is
    signed; the provider answers 404 (or 503 on every attempt, or does
    not answer at all).  [getAccessToken] resolves with [undefined]
    instead of rejecting; the same happens when a parameter is missing. *)
Theorem getAccessToken_swallows_provider_failure :
  let env replies :=
    {| readKey := fun pem => Return pem;
       sign := fun _ _ => Return "jwt";
       maxAttempts := 3;
       replies := replies |} in
  let ps := {| clientId := "Iv1.abc"; privatePem := "pem"; installationId := 7 |} in
  let body := {| token := ""; expires_at := "" |} in
  getAccessToken (env (fun _ => Status 404 body)) ps = Return None
  /\ getAccessToken (env (fun _ => Status 503 body)) ps = Return None
  /\ getAccessToken (env (fun _ => NoResponse)) ps = Return None
  /\ getAccessToken (env (fun _ => Status 404 body))
       {| clientId := ""; privatePem := "pem"; installationId := 7 |}
     = Return None.
Proof. vm_compute. done. Qed.

End Swallowed.

(** ** Overlapping calls for one key *)

Section Overlap.
Import Js Directory TokenBatcher BatchTokenCache Props EventLoop.
Implicit Types (st : State) (p : Pending) (pre post : list Thread).

(** A call for a repository of the batch [(inst, idx)] whose entry is
    absent, expired or without a token suspends at [await app.auth()];
    the entries of the cache are left as they were. *)
Lemma lookup_miss dir (cache : TokenCache) now name inst idx :
  in_batch dir name inst idx ->
  cached (entryAt cache inst idx) now = None ->
  exists b cache1,
    getBatchForRepoName dir inst name = Return b
    /\ lookup dir cache now name
       = (cache1, Return (Miss {| p_installationId := inst;
                                  p_batchIndex := idx; p_batch := b |}))
    /\ forall i j, entryAt cache1 i j = entryAt cache i j.
Proof.
  intros Hin Hmiss. destruct (cache !! inst) as [arr|] eqn:Harr.
  - destruct (lookup_in_batch dir cache now name inst idx arr Hin Harr)
      as (b & Hb & Hlook).
    unfold entryAt in Hmiss. rewrite Harr in Hmiss. simpl in Hmiss.
    rewrite Hmiss in Hlook. by exists b, cache.
  - destruct (lookup_in_batch dir (<[inst := ∅]> cache) now name inst idx ∅ Hin)
      as (b & Hb & Hlook); [by rewrite lookup_insert_eq|].
    rewrite lookup_empty in Hlook. simpl in Hlook.
    exists b, (<[inst := ∅]> cache). split; [done|]. split.
    + destruct Hin as [Hinst Hidx]. unfold lookup in *.
      rewrite Hinst in *. rewrite Harr. rewrite lookup_insert_eq in Hlook.
      done.
    + intros i j. unfold entryAt. destruct (decide (i = inst)) as [->|].
      * by rewrite lookup_insert_eq, Harr.
      * by rewrite lookup_insert_ne.
Qed.

(** [n] calls in a row, none resumed yet: each suspends with the same
    locals. *)
Lemma run_calls name inst idx b (n : nat) st :
  in_batch (directory st) name inst idx ->
  getBatchForRepoName (directory st) inst name = Return b ->
  cached (entryAt (tokens st) inst idx) (clock st) = None ->
  exists tokens',
    (forall i j, entryAt tokens' i j = entryAt (tokens st) i j)
    /\ run st (replicate n (Call name))
       = {| directory := directory st; tokens := tokens'; clock := clock st;
            threads := threads st
                       ++ replicate n (AwaitAuth {| p_installationId := inst;
                                                    p_batchIndex := idx;
                                                    p_batch := b |});
            sent := sent st |}.
Proof.
  revert st. induction n as [|n IH]; intros st Hin Hb Hmiss; simpl.
  - exists (tokens st). split; [done|]. rewrite app_nil_r. by destruct st.
  - destruct (lookup_miss _ _ _ _ _ _ Hin Hmiss) as (b' & cache1 & Hb' & Hlook & Hsame).
    rewrite Hb in Hb'. injection Hb' as <-. rewrite Hlook.
    match goal with |- context [run ?s _] => set (st1 := s) end.
    destruct (IH st1) as (tokens' & Hsame' & Hrun); [done|done|..].
    { simpl. by rewrite Hsame. }
    exists tokens'. split.
    + intros i j. rewrite Hsame'. apply Hsame.
    + rewrite Hrun. simpl. by rewrite <- app_assoc.
Qed.

(** Resuming [n] calls suspended at [await app.auth()]: each sends its
    request. *)
Lemma run_auths p (n : nat) pre post st :
  threads st = pre ++ replicate n (AwaitAuth p) ++ post ->
  run st (AuthResolved <$> seq (length pre) n)
  = {| directory := directory st; tokens := tokens st; clock := clock st;
       threads := pre ++ replicate n (AwaitResponse p) ++ post;
       sent := sent st ++ replicate n (requestFor p) |}.
Proof.
  revert pre st. induction n as [|n IH]; intros pre st Hthreads; simpl.
  - simpl in Hthreads. rewrite app_nil_r, <- Hthreads. by destruct st.
  - simpl in Hthreads. rewrite Hthreads, list_lookup_middle by done.
    rewrite insert_app_r_alt, Nat.sub_diag by done. simpl.
    replace (S (length pre)) with (length (pre ++ [AwaitResponse p]))
      by (rewrite length_app; simpl; lia).
    etrans.
    { apply (IH (pre ++ [AwaitResponse p])). simpl. by rewrite <- app_assoc. }
    simpl. by rewrite <- !app_assoc.
Qed.

Lemma in_flight_count inst idx b (n : nat) pre :
  length (List.filter (awaits inst idx)
            (pre ++ replicate n (AwaitResponse {| p_installationId := inst;
                                                  p_batchIndex := idx;
                                                  p_batch := b |})))
  = (length (List.filter (awaits inst idx) pre) + n)%nat.
Proof.
  rewrite List.filter_app, length_app. f_equal.
  induction n as [|n IH]; simpl; [done|].
  by rewrite !Z.eqb_refl; simpl; rewrite IH.
Qed.

(** C9, as stated, fails: two calls for repositories of one uncached
    batch, started before either is answered, put two requests for the
    same key in flight. *)
Lemma two_requests_in_flight_for_one_key :
  let st0 := {| directory := [("octo/a", {| repoId := 11; installationId := 7 |});
                              ("octo/b", {| repoId := 12; installationId := 7 |})];
                tokens := ∅; clock := 0; threads := []; sent := [] |} in
  let st := run st0 [Call "octo/a"; Call "octo/b"; AuthResolved 0; AuthResolved 1] in
  in_batch (directory st0) "octo/a" 7 0
  /\ in_batch (directory st0) "octo/b" 7 0
  /\ in_flight st 7 0 = 2%nat
  /\ sent st = [{| installation_id := 7; repository_ids := [11; 12] |};
                {| installation_id := 7; repository_ids := [11; 12] |}]
  /\ ~ (in_flight st 7 0 <= 1)%nat.
Proof. vm_compute. split_and!; try done. lia. Qed.

(** Both responses are stored, the later one over the earlier. *)
Example last_response_wins :
  let st0 := {| directory := [("octo/a", {| repoId := 11; installationId := 7 |})];
                tokens := ∅; clock := 0; threads := []; sent := [] |} in
  let st := run st0 [Call "octo/a"; Call "octo/a"; AuthResolved 0; AuthResolved 1;
                     Tick 30; Responded 1 "ghs_b"; Tick 30; Responded 0 "ghs_a"] in
  threads st = [Settled (Return "ghs_a"); Settled (Return "ghs_b")]
  /\ entryAt (tokens st) 7 0
     = Some {| batch := [11]; token := "ghs_a"; expiresAt := 3600060 |}.
Proof. vm_compute. done. Qed.

(** C9 (amended). There is no in-flight guard.  For every state, every
    key [(inst, idx)] whose entry is absent, expired or without a token,
    and every [n], [n] calls for a repository of that batch started
    before any of them is answered send [n] requests, one per call: the
    number of requests in flight for the key grows by [n], whatever was
    already in flight. *)
Theorem overlapping_calls_are_not_deduplicated st name inst idx (n : nat) :
  in_batch (directory st) name inst idx ->
  cached (entryAt (tokens st) inst idx) (clock st) = None ->
  exists b,
    getBatchForRepoName (directory st) inst name = Return b
    /\ let st' := run st (replicate n (Call name)
                          ++ (AuthResolved <$> seq (length (threads st)) n)) in
       in_flight st' inst idx = (in_flight st inst idx + n)%nat
       /\ sent st'
          = sent st ++ replicate n {| installation_id := inst; repository_ids := b |}.
Proof.
  intros Hin Hmiss.
  destruct (lookup_miss _ _ _ _ _ _ Hin Hmiss) as (b & _ & Hb & _).
  exists b. split; [done|].
  destruct (run_calls name inst idx b n st Hin Hb Hmiss) as (tokens' & _ & Hrun).
  unfold run in *. rewrite foldl_app, Hrun.
  match goal with |- context [foldl step ?s _] => set (st1 := s) end.
  pose proof (run_auths {| p_installationId := inst; p_batchIndex := idx; p_batch := b |}
                n (threads st) [] st1) as Hauth.
  unfold run in Hauth. rewrite Hauth by (simpl; by rewrite app_nil_r).
  unfold in_flight. simpl. rewrite app_nil_r. split; [|done].
  apply in_flight_count.
Qed.

Lemma overlapping_calls_are_not_deduplicated_witness :
  exists b,
    getBatchForRepoName [("octo/a", {| repoId := 11; installationId := 7 |})] 7 "octo/a"
    = Return b
    /\ let st0 := {| directory := [("octo/a", {| repoId := 11; installationId := 7 |})];
                     tokens := ∅; clock := 0; threads := []; sent := [] |} in
       let st' := run st0 (replicate 3 (Call "octo/a")
                           ++ (AuthResolved <$> seq 0 3)) in
       in_flight st' 7 0 = (in_flight st0 7 0 + 3)%nat
       /\ sent st'
          = sent st0 ++ replicate 3 {| installation_id := 7; repository_ids := b |}.
Proof.
  apply (overlapping_calls_are_not_deduplicated
           {| directory := [("octo/a", {| repoId := 11; installationId := 7 |})];
              tokens := ∅; clock := 0; threads := []; sent := [] |}
           "octo/a" 7 0 3).
  - split; reflexivity.
  - reflexivity.
Defined.

End Overlap.


(** ** More about the partitioner *)

Section PartitionerEdges.
Context {A : Type}.
Implicit Types (items : list A) (size : Z).
Import Js TokenBatcher.

(** The number of batches is the length divided by the size, rounded up. *)
Theorem chunk_count items size :
  1 <= size ->
  exists batches,
    chunk items size = Return batches
    /\ Z.of_nat (length batches) = (Z.of_nat (length items) + size - 1) / size.
Proof.
  intros Hsize.
  destruct (chunk_spec items size Hsize) as (batches & Hc & Hl & _).
  exists batches. split; [done|].
  pose proof (chunk_batches_length items size batches (length batches) Hsize Hl) as Hn.
  pose proof (chunk_batches_length items size batches (pred (length batches)) Hsize Hl) as Hp.
  set (len := Z.of_nat (length items)) in *.
  apply (Z.div_unique _ _ _ (len + size - 1 - Z.of_nat (length batches) * size)).
  - left. destruct (length batches) as [|n]; simpl in *; [lia|].
    assert (Z.of_nat n * size < len) by (apply Hp; lia).
    assert (~ Z.of_nat (S n) * size < len) by (rewrite <- Hn; lia).
    lia.
  - lia.
Qed.

Lemma chunk_loop_stuck fuel items size i out :
  size <= 0 -> i < Z.of_nat (length items) ->
  chunk_loop fuel items size i out = Diverge.
Proof.
  intros Hsize. revert i out. induction fuel as [|fuel IH]; intros i out Hi; simpl.
  - destruct (Z.leb_spec (Z.of_nat (length items)) i); [lia|done].
  - destruct (Z.leb_spec (Z.of_nat (length items)) i); [lia|].
    apply IH. lia.
Qed.

(** With a size of zero or less the loop of [chunk] never ends on a
    non-empty input: no amount of fuel lets it return. *)
Theorem chunk_nonpositive_size_never_returns items size :
  items <> [] -> size <= 0 ->
  chunk items size = Diverge
  /\ forall fuel, chunk_loop fuel items size 0 [] = Diverge.
Proof.
  intros Hne Hsize.
  assert (0 < Z.of_nat (length items)) by (destruct items; [done|simpl; lia]).
  split; [|intros fuel]; by apply chunk_loop_stuck.
Qed.

(** The element at position [p] of the list is member [p mod batchSize] of
    the batch [reposForBatch] returns for index [p / batchSize]. *)
Theorem reposForBatch_locates items size (p : nat) x :
  1 <= size ->
  items !! p = Some x ->
  exists b,
    reposForBatch items (Z.of_nat p / size) size = Return b
    /\ b !! Z.to_nat (Z.of_nat p mod size) = Some x.
Proof.
  intros Hsize Hp.
  pose proof (Z.div_mod (Z.of_nat p) size ltac:(lia)) as Hdm.
  pose proof (Z.mod_pos_bound (Z.of_nat p) size ltac:(lia)) as Hmod.
  pose proof (Z.div_pos (Z.of_nat p) size ltac:(lia) ltac:(lia)) as Hdiv.
  unfold reposForBatch. destruct (Z.ltb_spec (Z.of_nat p / size) 0); [lia|].
  eexists. split; [done|].
  rewrite slice_lookup by nia. rewrite <- Hp. f_equal. nia.
Qed.

End PartitionerEdges.

Lemma chunk_count_witness :
  exists batches,
    TokenBatcher.chunk [1; 2; 3; 4; 5; 6; 7] 3 = Js.Return batches
    /\ Z.of_nat (length batches) = (Z.of_nat (length [1; 2; 3; 4; 5; 6; 7]) + 3 - 1) / 3.
Proof. apply (chunk_count [1; 2; 3; 4; 5; 6; 7] 3). lia. Defined.

Lemma chunk_nonpositive_size_never_returns_witness :
  TokenBatcher.chunk [1; 2] (-2) = Js.Diverge
  /\ forall fuel, TokenBatcher.chunk_loop fuel [1; 2] (-2) 0 [] = Js.Diverge.
Proof.
  apply (chunk_nonpositive_size_never_returns [1; 2] (-2)); [discriminate|lia].
Defined.

Lemma reposForBatch_locates_witness :
  exists b,
    TokenBatcher.reposForBatch [10; 20; 30; 40; 50; 60; 70] (Z.of_nat 4 / 3) 3 = Js.Return b
    /\ b !! Z.to_nat (Z.of_nat 4 mod 3) = Some 50.
Proof.
  apply (reposForBatch_locates [10; 20; 30; 40; 50; 60; 70] 3 4 50); [lia|reflexivity].
Defined.

(** ** What a refresh writes *)

Section RefreshWrites.
Import Js Directory TokenBatcher BatchTokenCache Props.
Implicit Types (cache before : Directory.t) (app : App) (name : string).

(** After the repositories of one installation are stored, a name either
    keeps its value (no listed repository has it) or holds a listed
    repository with that name. *)
Lemma store_repos_get inst (repoList : list Repo) cache name :
  (Obj.get (store_repos inst repoList cache) name = Obj.get cache name
   /\ forall repo, repo ∈ repoList -> full_name repo <> name)
  \/ exists repo,
       repo ∈ repoList /\ full_name repo = name
       /\ Obj.get (store_repos inst repoList cache) name
          = Some {| repoId := id_of repo; installationId := inst |}.
Proof.
  revert cache. induction repoList as [|x l IH]; intros cache.
  - left. split; [done|]. intros repo Hin. by apply elem_of_nil in Hin.
  - unfold store_repos in *. simpl.
    destruct (IH (Obj.set cache (full_name x)
                    {| repoId := id_of x; installationId := inst |}))
      as [[Hget Hnone]|(repo & Hin & Hname & Hget)].
    + destruct (decide (full_name x = name)) as [Heq|Hne].
      * right. exists x. split; [apply list_elem_of_here|]. split; [done|].
        rewrite Hget, <- Heq. apply obj_get_set_eq.
      * left. split.
        -- rewrite Hget. by apply obj_get_set_ne.
        -- intros repo [->|Hin]%elem_of_cons; [done|by apply Hnone].
    + right. exists repo. split; [by apply list_elem_of_further|done].
Qed.

(** Two directories that, name by name, either hold the same value or
    still hold what they held at the start (nothing, for the second). *)
Lemma store_repos_overlay inst (repoList : list Repo) before c c0 :
  (forall name,
     (exists v, Obj.get c name = Some v /\ Obj.get c0 name = Some v)
     \/ (Obj.get c name = Obj.get before name /\ Obj.get c0 name = None)) ->
  forall name,
    (exists v, Obj.get (store_repos inst repoList c) name = Some v
               /\ Obj.get (store_repos inst repoList c0) name = Some v)
    \/ (Obj.get (store_repos inst repoList c) name = Obj.get before name
        /\ Obj.get (store_repos inst repoList c0) name = None).
Proof.
  revert c c0. induction repoList as [|x l IH]; intros c c0 HR; [done|].
  unfold store_repos in *. simpl. apply IH. intros name.
  destruct (decide (full_name x = name)) as [<-|Hne].
  - left. eexists. by rewrite !obj_get_set_eq.
  - rewrite !obj_get_set_ne by done. apply HR.
Qed.

Lemma populate_loop_overlay app insts before c c0 :
  (forall name,
     (exists v, Obj.get c name = Some v /\ Obj.get c0 name = Some v)
     \/ (Obj.get c name = Obj.get before name /\ Obj.get c0 name = None)) ->
  (populate_loop app insts c).2 = (populate_loop app insts c0).2
  /\ forall name,
       (exists v, Obj.get (populate_loop app insts c).1 name = Some v
                  /\ Obj.get (populate_loop app insts c0).1 name = Some v)
       \/ (Obj.get (populate_loop app insts c).1 name = Obj.get before name
           /\ Obj.get (populate_loop app insts c0).1 name = None).
Proof.
  revert c c0. induction insts as [|inst rest IH]; intros c c0 HR; simpl; [done|].
  destruct (repositories app inst) as [repoList| |]; simpl; [|done..].
  apply IH. by apply store_repos_overlay.
Qed.

(** [populateRepoIdCache] lays the enumeration over the directory it
    finds: a name the enumeration wrote holds the enumerated value, every
    other name keeps what it held before the call.  This holds however the
    call ends; when it rejects, the enumeration is the part written before
    the failure. *)
Theorem populateRepoIdCache_overlays app before name :
  Obj.get (populateRepoIdCache app before).1 name
  = match Obj.get (enumerated app) name with
    | Some v => Some v
    | None => Obj.get before name
    end
  /\ (populateRepoIdCache app before).2 = (populateRepoCache app before).2.
Proof.
  rewrite populateRepoCache_from_empty.
  unfold populateRepoIdCache, enumerated, populate_from.
  destruct (installations app) as [insts| |]; simpl; [|done..].
  destruct (populate_loop_overlay app insts before before []) as [Hout Hget].
  { intros k. by right. }
  split; [|done].
  destruct (Hget name) as [(v & -> & ->)|[-> ->]]; done.
Qed.

(** What [populateRepoCache] leaves behind and how it ends do not depend
    on what the directory held before the call. *)
Theorem populateRepoCache_forgets_previous app cache1 cache2 :
  populateRepoCache app cache1 = populateRepoCache app cache2.
Proof. by rewrite !populateRepoCache_from_empty. Qed.

Lemma populate_loop_get app insts cache cache' name :
  populate_loop app insts cache = (cache', Return tt) ->
  (Obj.get cache' name = Obj.get cache name
   /\ forall inst repoList repo,
        inst ∈ insts -> repositories app inst = Return repoList ->
        repo ∈ repoList -> full_name repo <> name)
  \/ exists inst repoList repo,
       inst ∈ insts /\ repositories app inst = Return repoList
       /\ repo ∈ repoList /\ full_name repo = name
       /\ Obj.get cache' name
          = Some {| repoId := id_of repo; installationId := inst |}.
Proof.
  revert cache. induction insts as [|inst rest IH]; intros cache; simpl.
  - intros [= <-]. left. split; [done|].
    intros inst repoList repo Hin. by apply elem_of_nil in Hin.
  - destruct (repositories app inst) as [repoList| |] eqn:Hrepos; [|done..].
    intros Hrun.
    destruct (IH _ Hrun) as [[Hget Hnone]|(i & l & repo & Hi & Hl & Hin & Hname & Hget)].
    + destruct (store_repos_get inst repoList cache name)
        as [[Hget' Hnone']|(repo & Hin & Hname & Hget')].
      * left. split; [by rewrite Hget|].
        intros i l repo [->|Hi]%elem_of_cons Hl Hin.
        -- rewrite Hrepos in Hl. injection Hl as <-. by apply Hnone'.
        -- by eapply Hnone.
      * right. exists inst, repoList, repo.
        split_and!; [apply list_elem_of_here|done..|by rewrite Hget].
    + right. exists i, l, repo. split_and!; [by apply list_elem_of_further|done..].
Qed.

(** After a completed [populateRepoCache], every entry of the directory
    comes from the enumeration (its name, id and installation are those of
    a repository some installation listed), and every listed repository
    has an entry under its full name. *)
Theorem populateRepoCache_entries app cache cache' insts :
  installations app = Return insts ->
  populateRepoCache app cache = (cache', Return tt) ->
  (forall name info,
     Obj.get cache' name = Some info ->
     exists inst repoList repo,
       inst ∈ insts /\ repositories app inst = Return repoList
       /\ repo ∈ repoList /\ full_name repo = name
       /\ info = {| repoId := id_of repo; installationId := inst |})
  /\ (forall inst repoList repo,
        inst ∈ insts -> repositories app inst = Return repoList ->
        repo ∈ repoList -> is_Some (Obj.get cache' (full_name repo))).
Proof.
  intros Hinsts. rewrite populateRepoCache_from_empty. unfold populate_from.
  rewrite Hinsts. intros Hrun. split.
  - intros name info Hinfo.
    destruct (populate_loop_get app insts [] cache' name Hrun)
      as [[Hget _]|(i & l & repo & Hi & Hl & Hin & Hname & Hget)].
    + rewrite Hget in Hinfo. done.
    + exists i, l, repo. rewrite Hget in Hinfo. injection Hinfo as <-. done.
  - intros inst repoList repo Hi Hl Hin.
    destruct (populate_loop_get app insts [] cache' (full_name repo) Hrun)
      as [[_ Hnone]|(i & l & r & _ & _ & _ & _ & Hget)].
    + by destruct (Hnone inst repoList repo Hi Hl Hin).
    + by rewrite Hget.
Qed.

Lemma populateRepoCache_entries_witness :
  is_Some (Obj.get [("octo/a", {| repoId := 11; installationId := 7 |});
                    ("acme/x", {| repoId := 21; installationId := 8 |})]
                   "acme/x").
Proof.
  destruct (populateRepoCache_entries
              {| installations := Return [7; 8];
                 repositories := fun inst =>
                   if inst =? 7 then Return [{| full_name := "octo/a"; id_of := 11 |}]
                   else Return [{| full_name := "acme/x"; id_of := 21 |}] |}
              [("octo/gone", {| repoId := 1; installationId := 7 |})]
              [("octo/a", {| repoId := 11; installationId := 7 |});
               ("acme/x", {| repoId := 21; installationId := 8 |})]
              [7; 8]) as [_ Hlisted]; [reflexivity|reflexivity|].
  apply (Hlisted 8 [{| full_name := "acme/x"; id_of := 21 |}]
                 {| full_name := "acme/x"; id_of := 21 |}).
  - apply list_elem_of_further, list_elem_of_here.
  - reflexivity.
  - apply list_elem_of_here.
Defined.

Lemma installation_ids_fold (infos : list RepoInfo) (acc : list Z) :
  NoDup acc ->
  NoDup (foldl (fun ids info =>
                  if bool_decide (installationId info ∈ ids) then ids
                  else ids ++ [installationId info]) acc infos)
  /\ forall x,
       x ∈ foldl (fun ids info =>
                    if bool_decide (installationId info ∈ ids) then ids
                    else ids ++ [installationId info]) acc infos
       <-> x ∈ acc \/ exists info, info ∈ infos /\ installationId info = x.
Proof.
  revert acc. induction infos as [|info infos IH]; intros acc Hnd; simpl.
  - split; [done|]. intros x. split; [by left|].
    intros [?|(info & Hin & _)]; [done|]. by apply elem_of_nil in Hin.
  - case_bool_decide as Hin.
    + destruct (IH acc Hnd) as [Hnd' Hmem]. split; [done|].
      intros x. rewrite Hmem. split.
      * intros [?|(i & Hi & Hx)]; [by left|].
        right. exists i. split; [by apply list_elem_of_further|done].
      * intros [?|(i & [->|Hi]%elem_of_cons & Hx)]; [by left|..].
        -- left. by rewrite <- Hx.
        -- right. by exists i.
    + destruct (IH (acc ++ [installationId info])) as [Hnd' Hmem].
      { apply NoDup_app. split_and!; [done| |apply NoDup_singleton].
        intros y Hy ->%list_elem_of_singleton. done. }
      split; [done|]. intros x. rewrite Hmem, elem_of_app, list_elem_of_singleton.
      split.
      * intros [[?| ->]|(i & Hi & Hx)]; [by left|..].
        -- right. exists info. split; [apply list_elem_of_here|done].
        -- right. exists i. split; [by apply list_elem_of_further|done].
      * intros [?|(i & [->|Hi]%elem_of_cons & Hx)]; [by left; left|..].
        -- left. by right.
        -- right. by exists i.
Qed.

(** [getAllInstallationIds] lists each installation id of the directory
    exactly once: the list has no duplicates, and an id is in it exactly
    when some value of the directory belongs to that installation. *)
Theorem getAllInstallationIds_distinct_and_complete (dir : Directory.t) :
  NoDup (getAllInstallationIds dir)
  /\ forall inst,
       inst ∈ getAllInstallationIds dir
       <-> exists info, info ∈ Obj.values dir /\ installationId info = inst.
Proof.
  destruct (installation_ids_fold (Obj.values dir) []) as [Hnd Hmem];
    [apply NoDup_nil_2|].
  split; [done|]. intros inst. unfold getAllInstallationIds. rewrite Hmem.
  split; [|by right]. intros [Hin|?]; [|done]. by apply elem_of_nil in Hin.
Qed.

Example getAllInstallationIds_first_seen_order :
  getAllInstallationIds
    [("octo/a", {| repoId := 11; installationId := 7 |});
     ("acme/x", {| repoId := 21; installationId := 8 |});
     ("octo/b", {| repoId := 12; installationId := 7 |})]
  = [7; 8].
Proof. reflexivity. Qed.

End RefreshWrites.

(** ** Bounds and consistency of the batch lookup *)

Section BatchBounds.
Import Js Directory TokenBatcher BatchTokenCache Props.
Implicit Types (dir : Directory.t) (name : string) (inst : Z).

(** Batch [j] of the partition of an id list is the slice that starts at
    [j * BATCH_SIZE]. *)
Lemma partition_batch (repoIds : list Z) batches (j : nat) b :
  chunk repoIds BATCH_SIZE = Return batches ->
  batches !! j = Some b ->
  Z.of_nat j * BATCH_SIZE < Z.of_nat (length repoIds)
  /\ b = slice repoIds (Z.of_nat j * BATCH_SIZE) (Z.of_nat j * BATCH_SIZE + BATCH_SIZE)
  /\ forall x, x ∈ b -> x ∈ repoIds.
Proof.
  intros Hchunk Hb.
  destruct (chunk_spec repoIds BATCH_SIZE BATCH_SIZE_pos) as (bs & Hbs & Hl & Hcat).
  rewrite Hchunk in Hbs. injection Hbs as <-.
  split_and!.
  - rewrite Hl in Hb. by case_decide.
  - rewrite Hl in Hb. case_decide; [|done]. by injection Hb.
  - intros x Hx. rewrite <- Hcat. apply list_elem_of_In, in_concat.
    exists b. split; apply list_elem_of_In; [|done].
    by eapply list_elem_of_lookup_2.
Qed.

(** When the index function returns [i], the batch function returns a
    batch too; [i] is the index of a batch that exists, the batch has
    between 1 and 500 ids, and all of them are ids of the installation. *)
Theorem batch_index_and_size_bounds dir inst name i :
  getBatchIndexForRepoName dir inst name = Return i ->
  exists b,
    getBatchForRepoName dir inst name = Return b
    /\ 0 <= i
    /\ i * BATCH_SIZE < Z.of_nat (length (repoIdsOf dir inst))
    /\ 1 <= Z.of_nat (length b) <= 500
    /\ forall x, x ∈ b -> x ∈ repoIdsOf dir inst.
Proof.
  intros Hi.
  destruct (batch_and_index dir inst name)
    as (batches & Hchunk & [(x & j & b & _ & Hj & Hb & Hlook & _)|(e & He & _)]);
    [|congruence].
  rewrite Hi in Hj. injection Hj as ->.
  destruct (partition_batch _ _ _ _ Hchunk Hlook) as (Hlt & -> & Hsub).
  pose proof BATCH_SIZE_pos.
  exists (slice (repoIdsOf dir inst) (Z.of_nat j * BATCH_SIZE)
                (Z.of_nat j * BATCH_SIZE + BATCH_SIZE)).
  split_and!; [done|lia|done| | |done];
    rewrite slice_length by lia; unfold BATCH_SIZE in *; lia.
Qed.

Lemma batch_index_and_size_bounds_witness :
  exists b,
    getBatchForRepoName [("octo/a", {| repoId := 11; installationId := 7 |});
                         ("octo/b", {| repoId := 12; installationId := 7 |})] 7 "octo/b"
    = Return b
    /\ 1 <= Z.of_nat (length b) <= 500.
Proof.
  destruct (batch_index_and_size_bounds
              [("octo/a", {| repoId := 11; installationId := 7 |});
               ("octo/b", {| repoId := 12; installationId := 7 |})] 7 "octo/b" 0)
    as (b & Hb & _ & _ & Hlen & _); [reflexivity|].
  exists b. split; [exact Hb|exact Hlen].
Defined.

(** Two repositories for which the index function returns the same index
    of the same installation get the same batch. *)
Theorem same_index_same_batch dir inst name1 name2 i :
  getBatchIndexForRepoName dir inst name1 = Return i ->
  getBatchIndexForRepoName dir inst name2 = Return i ->
  exists b,
    getBatchForRepoName dir inst name1 = Return b
    /\ getBatchForRepoName dir inst name2 = Return b.
Proof.
  intros H1 H2.
  destruct (batch_and_index dir inst name1)
    as (batches & Hchunk & [(x1 & j1 & b1 & _ & Hj1 & Hb1 & Hl1 & _)|(e & He & _)]);
    [|congruence].
  destruct (batch_and_index dir inst name2)
    as (batches' & Hchunk' & [(x2 & j2 & b2 & _ & Hj2 & Hb2 & Hl2 & _)|(e & He & _)]);
    [|congruence].
  rewrite Hchunk in Hchunk'. injection Hchunk' as <-.
  rewrite H1 in Hj1. rewrite H2 in Hj2.
  assert (j1 = j2) as -> by (apply Nat2Z.inj; congruence).
  exists b1. split; [done|]. congruence.
Qed.

Lemma same_index_same_batch_witness :
  exists b,
    getBatchForRepoName [("octo/a", {| repoId := 11; installationId := 7 |});
                         ("octo/b", {| repoId := 12; installationId := 7 |})] 7 "octo/a"
    = Return b
    /\ getBatchForRepoName [("octo/a", {| repoId := 11; installationId := 7 |});
                            ("octo/b", {| repoId := 12; installationId := 7 |})] 7 "octo/b"
       = Return b.
Proof.
  apply (same_index_same_batch _ 7 "octo/a" "octo/b" 0); reflexivity.
Defined.

(** An installation with at most 500 repositories has one batch: every
    repository of it with a non-zero id gets index 0 and the batch of all
    the installation's ids. *)
Theorem small_installation_has_one_batch dir name info :
  Obj.get dir name = Some info ->
  repoId info <> 0 ->
  (length (repoIdsOf dir (installationId info)) <= 500)%nat ->
  getBatchIndexForRepoName dir (installationId info) name = Return 0
  /\ getBatchForRepoName dir (installationId info) name
     = Return (repoIdsOf dir (installationId info)).
Proof.
  intros Hget Hid Hsmall.
  assert (repoIdFor dir name = Return (repoId info)) as Hfor.
  { unfold repoIdFor, truthy_num. rewrite Hget.
    destruct (Z.eqb_spec (repoId info) 0); done. }
  destruct (batch_and_index dir (installationId info) name)
    as (batches & Hchunk & [(x & j & b & _ & Hj & Hb & Hlook & _)|(e & _ & _ & Hno)]).
  - destruct (partition_batch _ _ _ _ Hchunk Hlook) as (Hlt & -> & _).
    unfold BATCH_SIZE in *. assert (j = 0%nat) as -> by lia.
    split; [done|]. rewrite Hb. f_equal.
    rewrite slice_take_drop by lia. simpl. apply take_ge. lia.
  - destruct Hno as [Hthrow|(x & Hx & Hnot)]; [congruence|].
    rewrite Hfor in Hx. injection Hx as <-.
    destruct Hnot. by apply (repoIdsOf_present dir name).
Qed.

Lemma small_installation_has_one_batch_witness :
  getBatchIndexForRepoName [("octo/a", {| repoId := 11; installationId := 7 |});
                            ("acme/x", {| repoId := 21; installationId := 8 |});
                            ("octo/b", {| repoId := 12; installationId := 7 |})] 7 "octo/b"
  = Return 0
  /\ getBatchForRepoName [("octo/a", {| repoId := 11; installationId := 7 |});
                          ("acme/x", {| repoId := 21; installationId := 8 |});
                          ("octo/b", {| repoId := 12; installationId := 7 |})] 7 "octo/b"
     = Return [11; 12].
Proof.
  apply (small_installation_has_one_batch
           [("octo/a", {| repoId := 11; installationId := 7 |});
            ("acme/x", {| repoId := 21; installationId := 8 |});
            ("octo/b", {| repoId := 12; installationId := 7 |})]
           "octo/b" {| repoId := 12; installationId := 7 |});
    [reflexivity|simpl; lia|simpl; lia].
Defined.

(** Asked about a known repository under an installation whose id list
    does not hold the repository's id, both functions throw "Repo ID not
    found in any batch". *)
Theorem foreign_installation_has_no_batch dir inst name info :
  Obj.get dir name = Some info ->
  repoId info <> 0 ->
  repoId info ∉ repoIdsOf dir inst ->
  getBatchIndexForRepoName dir inst name = Throw "Repo ID not found in any batch"
  /\ getBatchForRepoName dir inst name = Throw "Repo ID not found in any batch".
Proof.
  intros Hget Hid Hnot.
  assert (repoIdFor dir name = Return (repoId info)) as Hfor.
  { unfold repoIdFor, truthy_num. rewrite Hget.
    destruct (Z.eqb_spec (repoId info) 0); done. }
  set (repoIds := repoIdsOf dir inst) in *.
  destruct (index_loop_find (length repoIds) repoIds (repoId info) 0)
    as (batches & Hbs & Hcases); [lia|].
  change (Z.of_nat 0 * BATCH_SIZE) with 0 in Hbs, Hcases.
  unfold getBatchIndexForRepoName, getBatchForRepoName. fold repoIds.
  rewrite Hbs, Hfor. simpl.
  destruct Hcases as [(j & b & _ & _ & Hj & Hb)|(Hi & Hf & _)].
  - destruct Hnot.
    destruct (partition_batch repoIds batches j b Hbs Hj) as (_ & _ & Hsub).
    by apply Hsub.
  - by rewrite Hi, Hf.
Qed.

Lemma foreign_installation_has_no_batch_witness :
  getBatchIndexForRepoName [("octo/a", {| repoId := 11; installationId := 7 |});
                            ("acme/x", {| repoId := 21; installationId := 8 |})] 8 "octo/a"
  = Throw "Repo ID not found in any batch"
  /\ getBatchForRepoName [("octo/a", {| repoId := 11; installationId := 7 |});
                          ("acme/x", {| repoId := 21; installationId := 8 |})] 8 "octo/a"
     = Throw "Repo ID not found in any batch".
Proof.
  apply (foreign_installation_has_no_batch
           [("octo/a", {| repoId := 11; installationId := 7 |});
            ("acme/x", {| repoId := 21; installationId := 8 |})]
           8 "octo/a" {| repoId := 11; installationId := 7 |});
    [reflexivity|simpl; lia|].
  vm_compute. intros H. apply list_elem_of_singleton in H. discriminate.
Defined.

(** The size and membership bounds of a returned batch, for use where the
    batch is already known. *)
Lemma batch_index_bounds_helper dir inst name i b :
  getBatchIndexForRepoName dir inst name = Return i ->
  getBatchForRepoName dir inst name = Return b ->
  1 <= Z.of_nat (length b) <= 500
  /\ forall x, x ∈ b -> x ∈ repoIdsOf dir inst.
Proof.
  intros Hi Hb.
  destruct (batch_and_index dir inst name)
    as (batches & Hchunk & [(x & j & b' & _ & _ & Hb' & Hlook & _)|(e & He & _)]);
    [|congruence].
  rewrite Hb in Hb'. injection Hb' as <-.
  destruct (partition_batch _ _ _ _ Hchunk Hlook) as (Hlt & -> & Hsub).
  pose proof BATCH_SIZE_pos.
  split; [|done]. rewrite slice_length by lia. unfold BATCH_SIZE in *. lia.
Qed.

End BatchBounds.

(** ** What every broker call does *)

Section BrokerFrame.
Import Js Directory TokenBatcher BatchTokenCache Props.
Implicit Types (dir : Directory.t) (cache : TokenCache) (name : string).

(** Where the synchronous part of a call can stand, and what it has done
    to the cache by then: no entry has changed. *)
Lemma lookup_shape dir cache now name :
  (forall i j, entryAt (lookup dir cache now name).1 i j = entryAt cache i j)
  /\ match (lookup dir cache now name).2 with
     | Return (Hit tok) =>
         exists inst idx e,
           in_batch dir name inst idx
           /\ entryAt cache inst idx = Some e
           /\ tok = token e /\ token e <> "" /\ now < expiresAt e
     | Return (Miss p) =>
         in_batch dir name (p_installationId p) (p_batchIndex p)
         /\ getBatchForRepoName dir (p_installationId p) name = Return (p_batch p)
         /\ is_Some ((lookup dir cache now name).1 !! p_installationId p)
         /\ cached (entryAt cache (p_installationId p) (p_batchIndex p)) now = None
     | Throw _ => True
     | Diverge => True
     end.
Proof.
  unfold lookup.
  destruct (getInstallationIdForRepo dir name) as [inst| |] eqn:Hinst; simpl; [|done..].
  set (cache1 := match cache !! inst with Some _ => cache | None => <[inst:=∅]> cache end).
  assert (Hsame : forall i j, entryAt cache1 i j = entryAt cache i j).
  { intros i j. unfold cache1, entryAt.
    destruct (cache !! inst) as [arr|] eqn:Harr; [done|].
    destruct (decide (i = inst)) as [->|].
    - by rewrite lookup_insert_eq, Harr.
    - by rewrite lookup_insert_ne. }
  assert (Hsome : is_Some (cache1 !! inst)).
  { unfold cache1. destruct (cache !! inst) eqn:Harr; [by rewrite Harr|].
    by rewrite lookup_insert_eq. }
  split; [done|].
  destruct (getBatchIndexForRepoName dir inst name) as [idx| |] eqn:Hidx; simpl; [|done..].
  destruct (getBatchForRepoName dir inst name) as [b| |] eqn:Hb; simpl; [|done..].
  rewrite Hsame.
  destruct (cached (entryAt cache inst idx) now) as [tok|] eqn:Hc; simpl.
  - destruct (entryAt cache inst idx) as [e|] eqn:He; simpl in Hc; [|done].
    destruct (truthy_str (token e)) eqn:Ht; simpl in Hc; [|done].
    destruct (Z.ltb_spec now (expiresAt e)); [|done]. injection Hc as <-.
    exists inst, idx, e. split_and!; try done.
    intros Hempty. rewrite Hempty in Ht. done.
  - done.
Qed.

Lemma store_entry cache p now tok arr :
  cache !! p_installationId p = Some arr ->
  (store cache p now tok).2 = Return tok
  /\ forall i j,
       entryAt (store cache p now tok).1 i j
       = if decide (i = p_installationId p /\ j = p_batchIndex p)
         then Some {| batch := p_batch p; token := tok;
                      expiresAt := now + TOKEN_EXPIRY |}
         else entryAt cache i j.
Proof.
  intros Harr. unfold store. rewrite Harr. simpl. split; [done|].
  intros i j. rewrite entryAt_insert.
  destruct (decide (i = p_installationId p)) as [->|Hi].
  - destruct (decide (j = p_batchIndex p)) as [->|Hj].
    + by rewrite decide_True.
    + rewrite decide_False by tauto. unfold entryAt. by rewrite Harr.
  - by rewrite decide_False by tauto.
Qed.

(** Whatever the directory, the cache and the provider do, one call sends
    at most one request; a request it sends is addressed to the
    repository's installation and lists the repository's batch: between 1
    and 500 ids, all of that installation. *)
Theorem call_sends_at_most_one_bounded_request
    (provider : Provider) (elapsed : N) dir cache (now : Z) name :
  let reqs := (getBatchTokenForRepo provider elapsed dir cache now name).1.2 in
  (length reqs <= 1)%nat
  /\ forall req,
       req ∈ reqs ->
       getInstallationIdForRepo dir name = Return (installation_id req)
       /\ getBatchForRepoName dir (installation_id req) name
          = Return (repository_ids req)
       /\ 1 <= Z.of_nat (length (repository_ids req)) <= 500
       /\ forall x, x ∈ repository_ids req ->
                    x ∈ repoIdsOf dir (installation_id req).
Proof.
  unfold getBatchTokenForRepo.
  destruct (lookup_shape dir cache now name) as [_ Hshape].
  destruct (lookup dir cache now name) as [cache1 [[tok|p]| |]]; simpl in *;
    try (split; [lia|intros req Hreq; by apply elem_of_nil in Hreq]).
  destruct Hshape as ([Hinst Hidx] & Hb & _ & _).
  assert (Hreq : forall req, req ∈ [requestFor p] ->
            getInstallationIdForRepo dir name = Return (installation_id req)
            /\ getBatchForRepoName dir (installation_id req) name
               = Return (repository_ids req)
            /\ 1 <= Z.of_nat (length (repository_ids req)) <= 500
            /\ forall x, x ∈ repository_ids req ->
                         x ∈ repoIdsOf dir (installation_id req)).
  { intros req ->%list_elem_of_singleton. unfold requestFor. simpl.
    destruct (batch_index_bounds_helper dir (p_installationId p) name
                (p_batchIndex p) (p_batch p) Hidx Hb) as [Hlen Hsub].
    done. }
  destruct provider as [e|e|tok]; simpl.
  - split; [lia|]. intros req Hin. by apply elem_of_nil in Hin.
  - split; [lia|done].
  - destruct (store cache1 p (now + Z.of_N elapsed) tok). simpl. split; [lia|done].
Qed.

End BrokerFrame.

Section BrokerCompose.
Import Js Directory TokenBatcher BatchTokenCache Props.
Implicit Types (dir : Directory.t) (cache : TokenCache) (name : string).

(** A call changes at most the entry of the repository's own key, and only
    when the provider responds: every other entry, and every entry when
    the call hits, throws or is rejected, is afterwards what it was before.
    No entry is ever removed. *)
Theorem call_changes_only_its_key
    (provider : Provider) (elapsed : N) dir cache (now : Z) name (i j : Z) :
  let call := getBatchTokenForRepo provider elapsed dir cache now name in
  entryAt call.1.1 i j = entryAt cache i j
  \/ (in_batch dir name i j
      /\ exists tok b,
           provider = Responds tok
           /\ call.2 = Return tok
           /\ getBatchForRepoName dir i name = Return b
           /\ entryAt call.1.1 i j
              = Some {| batch := b; token := tok;
                        expiresAt := now + Z.of_N elapsed + TOKEN_EXPIRY |}).
Proof.
  unfold getBatchTokenForRepo.
  destruct (lookup_shape dir cache now name) as [Hsame Hshape].
  destruct (lookup dir cache now name) as [cache1 [[tok|p]| |]]; simpl in *;
    try (by left).
  destruct Hshape as (Hin & Hb & [arr Harr] & _).
  destruct provider as [e|e|tok]; simpl; try (by left).
  destruct (store_entry cache1 p (now + Z.of_N elapsed) tok arr Harr) as [Hr Hentry].
  destruct (store cache1 p (now + Z.of_N elapsed) tok) as [cache2 r]. simpl in *.
  rewrite Hentry. case_decide as Hkey.
  - destruct Hkey as [-> ->]. right. split; [done|]. by exists tok, (p_batch p).
  - left. apply Hsame.
Qed.

(** A first call that misses and is answered with a non-empty token,
    followed by a call for any repository of the same batch less than an
    hour after the answer was stored: the first sends one request and
    returns the token, the second returns the same token, sends nothing
    and leaves the cache as the first left it. *)
Theorem answered_call_serves_the_batch
    dir cache (inst idx : Z) name1 name2 (now now2 : Z) (elapsed : N)
    (tok : string) (provider2 : Provider) (elapsed2 : N) :
  in_batch dir name1 inst idx ->
  in_batch dir name2 inst idx ->
  cached (entryAt cache inst idx) now = None ->
  tok <> "" ->
  now + Z.of_N elapsed <= now2 < now + Z.of_N elapsed + TOKEN_EXPIRY ->
  let first := getBatchTokenForRepo (Responds tok) elapsed dir cache now name1 in
  first.2 = Return tok
  /\ length first.1.2 = 1%nat
  /\ getBatchTokenForRepo provider2 elapsed2 dir first.1.1 now2 name2
     = (first.1.1, [], Return tok).
Proof.
  intros [Hinst1 Hidx1] Hin2 Hmiss Htok Hnow2.
  unfold getBatchTokenForRepo.
  destruct (lookup_shape dir cache now name1) as [Hsame Hshape].
  destruct (lookup dir cache now name1) as [cache1 [[tok'|p]| |]] eqn:Hlook;
    simpl in *.
  - destruct Hshape as (inst' & idx' & e & [Hinst' Hidx'] & He & _ & Hne & Hlt).
    rewrite Hinst1 in Hinst'. injection Hinst' as <-.
    rewrite Hidx1 in Hidx'. injection Hidx' as <-.
    rewrite He in Hmiss. simpl in Hmiss. unfold truthy_str in Hmiss.
    destruct (String.eqb_spec (token e) ""); [done|].
    destruct (Z.ltb_spec now (expiresAt e)); [done|lia].
  - destruct Hshape as ([Hinst Hidx] & Hb & [arr Harr] & _).
    rewrite Hinst1 in Hinst. injection Hinst as Hpi.
    rewrite <- Hpi, Hidx1 in Hidx. injection Hidx as Hpj.
    set (new := {| batch := p_batch p; token := tok;
                   expiresAt := now + Z.of_N elapsed + TOKEN_EXPIRY |}).
    set (cache2 := <[p_installationId p := <[p_batchIndex p := new]> arr]> cache1).
    assert (store cache1 p (now + Z.of_N elapsed) tok = (cache2, Return tok)) as ->.
    { unfold store. by rewrite Harr. }
    simpl. split; [done|]. split; [done|].
    destruct (lookup_in_batch dir cache2 now2 name2 inst idx
                (<[p_batchIndex p := new]> arr) Hin2) as (b & _ & Hlook2).
    { unfold cache2. rewrite <- Hpi. apply lookup_insert_eq. }
    rewrite Hlook2. rewrite Hpj, lookup_insert_eq. simpl.
    unfold truthy_str. destruct (String.eqb_spec tok ""); [done|].
    destruct (Z.ltb_spec now2 (now + Z.of_N elapsed + TOKEN_EXPIRY)); [by simpl|lia].
  - unfold lookup in Hlook. rewrite Hinst1 in Hlook.
    destruct (batch_and_index dir inst name1)
      as (bs & _ & [(x & j & b & _ & Hi & Hb & _)|(e' & Hi & _)]); [|congruence].
    rewrite Hidx1, Hb in Hlook. simpl in Hlook.
    match type of Hlook with
    | context [cached ?entry now] => destruct (cached entry now)
    end; congruence.
  - unfold lookup in Hlook. rewrite Hinst1 in Hlook.
    destruct (batch_and_index dir inst name1)
      as (bs & _ & [(x & j & b & _ & Hi & Hb & _)|(e' & Hi & _)]); [|congruence].
    rewrite Hidx1, Hb in Hlook. simpl in Hlook.
    match type of Hlook with
    | context [cached ?entry now] => destruct (cached entry now)
    end; congruence.
Qed.

Lemma answered_call_serves_the_batch_witness :
  let dir := [("octo/repo-001", {| repoId := 11; installationId := 7 |});
              ("octo/repo-250", {| repoId := 12; installationId := 7 |})] in
  let first := getBatchTokenForRepo (Responds "ghs_1") 20 dir ∅ 1000 "octo/repo-001" in
  first.2 = Return "ghs_1"
  /\ length first.1.2 = 1%nat
  /\ getBatchTokenForRepo (RequestRejects "500") 0 dir first.1.1 1500 "octo/repo-250"
     = (first.1.1, [], Return "ghs_1").
Proof.
  apply (answered_call_serves_the_batch
           [("octo/repo-001", {| repoId := 11; installationId := 7 |});
            ("octo/repo-250", {| repoId := 12; installationId := 7 |})]
           ∅ 7 0 "octo/repo-001" "octo/repo-250" 1000 1500 20 "ghs_1"
           (RequestRejects "500") 0).
  - split; reflexivity.
  - split; reflexivity.
  - reflexivity.
  - discriminate.
  - unfold TOKEN_EXPIRY. simpl. lia.
Defined.

End BrokerCompose.

(** ** Every schedule of the event loop *)

Section Schedules.
Import Js Directory TokenBatcher BatchTokenCache Props EventLoop.
Implicit Types (st : State) (ev : Event) (evs : list Event).

Local Abbreviation at_auth :=
  (fun t : Thread => match t with AwaitAuth _ => true | _ => false end).
Local Abbreviation is_call :=
  (fun ev : Event => match ev with Call _ => true | _ => false end).

Lemma filter_insert_count {T} (f : T -> bool) (l : list T) (i : nat) (x y : T) :
  l !! i = Some x ->
  (length (List.filter f (<[i:=y]> l)) + (if f x then 1 else 0)
   = length (List.filter f l) + (if f y then 1 else 0))%nat.
Proof.
  revert i. induction l as [|z l IH]; intros [|i]; simpl; try done.
  - intros [= ->]. destruct (f x), (f y); simpl; lia.
  - intros Hi. specialize (IH i Hi). destruct (f z); simpl; lia.
Qed.

(** One step keeps the count: the requests sent so far plus the calls
    still waiting to send theirs never exceed the calls made. *)
Lemma step_keeps_count st ev :
  (length (sent st) + length (List.filter at_auth (threads st))
   <= length (threads st))%nat ->
  (length (sent (step st ev)) + length (List.filter at_auth (threads (step st ev)))
   <= length (threads (step st ev)))%nat
  /\ length (threads (step st ev))
     = (length (threads st) + (if is_call ev then 1 else 0))%nat.
Proof.
  intros Hinv. destruct ev as [name|tid|tid e|tid tok|tid e|ms]; simpl.
  - destruct (lookup (directory st) (tokens st) (clock st) name) as [cache1 r].
    simpl. rewrite List.filter_app, !length_app. simpl.
    split; [|done]. destruct r as [[?|?]| |]; simpl; lia.
  - destruct (threads st !! tid) as [[p|p|r]|] eqn:Ht; simpl; try (split; [done|lia]).
    pose proof (filter_insert_count at_auth _ _ _ (AwaitResponse p) Ht) as Hc.
    simpl in Hc. rewrite length_app, length_insert. simpl. split; lia.
  - destruct (threads st !! tid) as [[p|p|r]|] eqn:Ht; simpl; try (split; [done|lia]).
    pose proof (filter_insert_count at_auth _ _ _ (Settled (Throw e)) Ht) as Hc.
    simpl in Hc. rewrite length_insert. split; lia.
  - destruct (threads st !! tid) as [[p|p|r]|] eqn:Ht; simpl; try (split; [done|lia]).
    destruct (store (tokens st) p (clock st) tok) as [cache2 r]. simpl.
    pose proof (filter_insert_count at_auth _ _ _ (Settled r) Ht) as Hc.
    simpl in Hc. rewrite length_insert. split; lia.
  - destruct (threads st !! tid) as [[p|p|r]|] eqn:Ht; simpl; try (split; [done|lia]).
    pose proof (filter_insert_count at_auth _ _ _ (Settled (Throw e)) Ht) as Hc.
    simpl in Hc. rewrite length_insert. split; lia.
  - split; [done|lia].
Qed.

(** Starting with no call made and no request sent, after any sequence of
    events (calls, resolutions and rejections in any order, for any call
    numbers) the requests sent to the provider are at most as many as the
    calls made: no schedule makes a call send twice. *)
Theorem requests_never_exceed_calls st evs :
  threads st = [] -> sent st = [] ->
  (length (sent (run st evs)) <= length (List.filter is_call evs))%nat
  /\ length (threads (run st evs)) = length (List.filter is_call evs).
Proof.
  intros Hthreads Hsent.
  assert (Hgen : forall evs st,
            (length (sent st) + length (List.filter at_auth (threads st))
             <= length (threads st))%nat ->
            (length (sent (run st evs))
             + length (List.filter at_auth (threads (run st evs)))
             <= length (threads (run st evs)))%nat
            /\ length (threads (run st evs))
               = (length (threads st) + length (List.filter is_call evs))%nat).
  { clear. induction evs as [|ev evs IH]; intros st Hinv; simpl.
    - split; [done|lia].
    - destruct (step_keeps_count st ev Hinv) as [Hinv' Hlen].
      destruct (IH (step st ev) Hinv') as [Hinv'' Hlen'].
      unfold run in *. split; [done|].
      rewrite Hlen', Hlen. destruct ev; simpl; lia. }
  destruct (Hgen evs st) as [Hinv Hlen].
  { rewrite Hthreads, Hsent. simpl. lia. }
  rewrite Hthreads in Hlen. simpl in Hlen. split; lia.
Qed.

Lemma requests_never_exceed_calls_witness :
  let st0 := {| directory := [("octo/a", {| repoId := 11; installationId := 7 |})];
                tokens := ∅; clock := 0; threads := []; sent := [] |} in
  let evs := [Call "octo/a"; AuthResolved 0; AuthResolved 0; Call "octo/a";
              Responded 0 "ghs_1"; AuthResolved 1; Responded 0 "ghs_2"] in
  (length (sent (run st0 evs)) <= length (List.filter is_call evs))%nat
  /\ length (threads (run st0 evs)) = length (List.filter is_call evs).
Proof.
  apply (requests_never_exceed_calls
           {| directory := [("octo/a", {| repoId := 11; installationId := 7 |})];
              tokens := ∅; clock := 0; threads := []; sent := [] |});
    reflexivity.
Defined.


End Schedules.

(** ** The retry loop *)

Section RetryLoop.
Import Js InstallationToken Retry.
Implicit Types (replies : Z -> Reply) (maxAttempts attempt : Z).

Lemma success_not_transient s : success_status s = true -> transient_status s = false.
Proof.
  unfold success_status, transient_status, includes. simpl.
  intros [H1 H2%Z.ltb_lt]%andb_prop.
  destruct (Z.eqb_spec s 502), (Z.eqb_spec s 503), (Z.eqb_spec s 504); simpl; lia.
Qed.

(** What one pass through the loop body decides, reply by reply. *)
Lemma axios_post_cases reply :
  match axios_post reply with
  | Resolved s data =>
      reply = Status s data
      /\ (if success_status s then delivers reply = Some data
          else delivers reply = None /\ retriable reply = true)
  | Rejected error =>
      delivers reply = None /\ isTransient error = retriable reply
  end.
Proof.
  destruct reply as [s data| |]; simpl; [|done..].
  unfold validateStatus. destruct (success_status s) eqn:Hs; simpl.
  - by rewrite Hs.
  - destruct (transient_status s) eqn:Ht; simpl; [by rewrite Hs|].
    unfold isTransient. simpl. by rewrite Ht.
Qed.

(** From attempt [attempt] on, the loop returns a payload exactly when
    some later attempt, within the bound, is answered with a 2xx response
    and every attempt before it was answered retriably. *)
Lemma request_loop_delivers fuel replies maxAttempts attempt data :
  maxAttempts - attempt <= Z.of_nat fuel ->
  request_loop fuel replies maxAttempts attempt = Return (Some data)
  <-> exists k,
        attempt < k <= maxAttempts
        /\ delivers (replies k) = Some data
        /\ forall j, attempt < j < k -> retriable (replies j) = true.
Proof.
  revert attempt. induction fuel as [|fuel IH]; intros attempt Hfuel; simpl.
  - destruct (Z.ltb_spec attempt maxAttempts); [lia|].
    split; [done|]. intros (k & Hk & _). lia.
  - destruct (Z.ltb_spec attempt maxAttempts) as [Hlt|Hge];
      [|split; [done|intros (k & Hk & _); lia]].
    assert (Hstep : forall P : Prop,
              (P <-> exists k, attempt + 1 < k <= maxAttempts
                               /\ delivers (replies k) = Some data
                               /\ forall j, attempt + 1 < j < k ->
                                            retriable (replies j) = true) ->
              delivers (replies (attempt + 1)) = None ->
              retriable (replies (attempt + 1)) = true ->
              P <-> exists k, attempt < k <= maxAttempts
                              /\ delivers (replies k) = Some data
                              /\ forall j, attempt < j < k ->
                                           retriable (replies j) = true).
    { intros P HP Hnone Hretry. rewrite HP. split.
      - intros (k & Hk & Hd & Hall). exists k. split_and!; [lia|lia|done|].
        intros j Hj. destruct (decide (j = attempt + 1)) as [->|]; [done|].
        apply Hall. lia.
      - intros (k & Hk & Hd & Hall).
        destruct (decide (k = attempt + 1)) as [->|]; [congruence|].
        exists k. split_and!; [lia|lia|done|]. intros j Hj. apply Hall. lia. }
    assert (Hstop : delivers (replies (attempt + 1)) = None ->
              (retriable (replies (attempt + 1)) = false
               \/ maxAttempts <= attempt + 1) ->
              ~ exists k, attempt < k <= maxAttempts
                          /\ delivers (replies k) = Some data
                          /\ forall j, attempt < j < k ->
                                       retriable (replies j) = true).
    { intros Hnone Hwhy (k & Hk & Hd & Hall).
      destruct (decide (k = attempt + 1)) as [->|]; [congruence|].
      destruct Hwhy as [Hno|?]; [|lia].
      rewrite Hall in Hno by lia. done. }
    pose proof (axios_post_cases (replies (attempt + 1))) as Hcases.
    destruct (axios_post (replies (attempt + 1))) as [s d|error].
    + destruct Hcases as [Hreply Hs]. destruct (success_status s) eqn:Hsucc.
      * split.
        -- intros [= ->]. exists (attempt + 1). split_and!; [lia|lia|done|]. intros j Hj. lia.
        -- intros (k & Hk & Hd & Hall).
           destruct (decide (k = attempt + 1)) as [->|]; [congruence|].
           specialize (Hall (attempt + 1) ltac:(lia)).
           rewrite Hreply in Hall. simpl in Hall.
           by rewrite (success_not_transient s Hsucc) in Hall.
      * destruct Hs as [Hnone Hretry].
        destruct (Z.ltb_spec (attempt + 1) maxAttempts).
        -- apply Hstep; [apply IH; lia|done..].
        -- split; [done|]. intros H'. destruct Hstop; [done|by right|done].
    + destruct Hcases as [Hnone Htrans]. rewrite Htrans.
      destruct (retriable (replies (attempt + 1))) eqn:Hretry; simpl.
      * destruct (Z.ltb_spec (attempt + 1) maxAttempts).
        -- apply Hstep; [apply IH; lia|done..].
        -- split; [done|]. intros H'. destruct Hstop; [done|by right|done].
      * split; [done|]. intros H'. destruct Hstop; [done|by left|done].
Qed.

(** [requestInstallationAccessToken] returns a payload exactly when some
    attempt [k] between 1 and [maxAttempts] is answered with a 2xx
    response and every earlier attempt was answered with 502, 503, 504 or
    not at all; the payload is that response's body. *)
Theorem request_succeeds_iff replies maxAttempts data :
  requestInstallationAccessToken maxAttempts replies = Return (Some data)
  <-> exists k,
        1 <= k <= maxAttempts
        /\ delivers (replies k) = Some data
        /\ forall j, 1 <= j < k -> retriable (replies j) = true.
Proof.
  unfold requestInstallationAccessToken.
  rewrite request_loop_delivers by lia. split.
  - intros (k & Hk & Hd & Hall). exists k. split_and!; [lia|lia|done|].
    intros j Hj. apply Hall. lia.
  - intros (k & Hk & Hd & Hall). exists k. split_and!; [lia|lia|done|].
    intros j Hj. apply Hall. lia.
Qed.

Lemma request_loop_returns fuel replies maxAttempts attempt :
  maxAttempts - attempt <= Z.of_nat fuel ->
  exists r, request_loop fuel replies maxAttempts attempt = Return r.
Proof.
  revert attempt. induction fuel as [|fuel IH]; intros attempt Hfuel; simpl.
  - destruct (Z.ltb_spec attempt maxAttempts); [lia|by eexists].
  - destruct (Z.ltb_spec attempt maxAttempts); [|by eexists].
    destruct (axios_post _) as [s d|error].
    + destruct (success_status s); [by eexists|].
      destruct (Z.ltb_spec (attempt + 1) maxAttempts); [apply IH; lia|by eexists].
    + destruct (isTransient error); simpl; [|by eexists].
      destruct (Z.ltb_spec (attempt + 1) maxAttempts); [apply IH; lia|by eexists].
Qed.

Lemma request_always_resolves_aux replies maxAttempts :
  exists r, requestInstallationAccessToken maxAttempts replies = Return r.
Proof. apply request_loop_returns. lia. Qed.

(** The retry loop always ends, and ends by returning: for every bound
    and every sequence of replies the call resolves, with the payload or
    with [undefined]; it never rejects. *)
Theorem request_always_resolves replies maxAttempts :
  exists r, requestInstallationAccessToken maxAttempts replies = Return r.
Proof. apply request_loop_returns. lia. Qed.

(** With a bound of zero or less no attempt is made at all. *)
Example no_attempt_allowed :
  requestInstallationAccessToken 0
    (fun _ => Status 201 {| token := "ghs_1"; expires_at := "2026" |})
  = Return None.
Proof. reflexivity. Qed.

End RetryLoop.

(** ** What [getAccessToken] resolves with *)

Section AccessToken.
Import Js InstallationToken Retry.
Implicit Types (env : Env) (ps : Params).

Lemma truthy_str_true s : truthy_str s = true <-> s <> "".
Proof. unfold truthy_str. destruct (String.eqb_spec s ""); split; done. Qed.

Lemma truthy_num_true n : truthy_num n = true <-> n <> 0.
Proof. unfold truthy_num. destruct (Z.eqb_spec n 0); split; done. Qed.

(** [getAccessToken] resolves with a payload exactly when the three
    parameters are present, the key is read, the JWT is signed and the
    request returns that payload. *)
Theorem getAccessToken_succeeds_iff env ps data :
  getAccessToken env ps = Return (Some data)
  <-> clientId ps <> "" /\ privatePem ps <> "" /\ installationId ps <> 0
      /\ exists key jwtToken,
           readKey env (privatePem ps) = Return key
           /\ sign env (clientId ps) key = Return jwtToken
           /\ requestInstallationAccessToken (maxAttempts env) (replies env)
              = Return (Some data).
Proof.
  unfold getAccessToken, validateCoreParams, generateJWT.
  rewrite <- !truthy_str_true, <- truthy_num_true.
  destruct (truthy_str (clientId ps)); simpl;
    [|split; [done|by intros (? & _)]].
  destruct (truthy_str (privatePem ps)); simpl;
    [|split; [done|by intros (_ & ? & _)]].
  destruct (truthy_num (installationId ps)); simpl;
    [|split; [done|by intros (_ & _ & ? & _)]].
  destruct (readKey env (privatePem ps)) as [key| |]; simpl;
    try (split; [done|by intros (_ & _ & _ & ? & ? & ? & _)]).
  destruct (sign env (clientId ps) key) as [jwtToken| |] eqn:Hsign; simpl;
    try (split; [done|intros (_ & _ & _ & ? & ? & [= <-] & ? & _); congruence]).
  destruct (requestInstallationAccessToken (maxAttempts env) (replies env))
    as [r| |] eqn:Hreq; simpl.
  - split.
    + intros [= ->]. split_and!; try done. by exists key, jwtToken.
    + by intros (_ & _ & _ & ? & ? & _ & _ & ->).
  - split; [done|]. by intros (_ & _ & _ & ? & ? & _ & _ & ?).
  - split; [done|]. by intros (_ & _ & _ & ? & ? & _ & _ & ?).
Qed.

(** As long as reading the key and signing come back at all,
    [getAccessToken] resolves: a missing parameter, an unreadable key, a
    signing error and every provider failure all end in a resolved
    promise, never in a rejection. *)
Theorem getAccessToken_always_resolves env ps :
  (forall pem, readKey env pem <> Diverge) ->
  (forall c key, sign env c key <> Diverge) ->
  exists r, getAccessToken env ps = Return r.
Proof.
  intros Hread Hsign. unfold getAccessToken, validateCoreParams, generateJWT.
  destruct (truthy_str (clientId ps)); simpl; [|by eexists].
  destruct (truthy_str (privatePem ps)); simpl; [|by eexists].
  destruct (truthy_num (installationId ps)); simpl; [|by eexists].
  specialize (Hread (privatePem ps)).
  destruct (readKey env (privatePem ps)) as [key| |]; simpl; [|by eexists|done].
  specialize (Hsign (clientId ps) key).
  destruct (sign env (clientId ps) key) as [jwtToken| |]; simpl; [|by eexists|done].
  destruct (request_always_resolves_aux (replies env) (maxAttempts env)) as [r ->].
  by eexists.
Qed.

Lemma getAccessToken_always_resolves_witness :
  exists r,
    getAccessToken {| readKey := fun _ => Throw "ENOENT";
                      sign := fun _ _ => Return "jwt";
                      maxAttempts := 3;
                      replies := fun _ => NoResponse |}
                   {| clientId := "Iv1.abc"; privatePem := "key.pem"; installationId := 7 |}
    = Return r.
Proof.
  apply (getAccessToken_always_resolves
           {| readKey := fun _ => Throw "ENOENT";
              sign := fun _ _ => Return "jwt";
              maxAttempts := 3;
              replies := fun _ => NoResponse |}
           {| clientId := "Iv1.abc"; privatePem := "key.pem"; installationId := 7 |});
    simpl; intros; discriminate.
Defined.

End AccessToken.

(** ** Batch tokens *)

Section BatchTokenRequests.
Import Js InstallationToken TokenBatcher BatchTokens.
Implicit Types (env : Env) (ps : Params) (repositories : list string).

(** [getBatchToken] rejects exactly when the batch is empty or has more
    than 500 repositories; for a batch of 1 to 500 it is [getAccessToken],
    which does not reject even when the provider fails. *)
Theorem getBatchToken_rejects_iff env ps repositories :
  (exists message, getBatchToken env ps repositories = Throw message)
  <-> repositories = [] \/ (500 < length repositories)%nat.
Proof.
  unfold getBatchToken.
  destruct (Nat.eqb_spec (length repositories) 0) as [H0|H0].
  - split; [|by eexists]. intros _. left. by apply length_zero_iff_nil.
  - destruct (Nat.ltb_spec 500 (length repositories)).
    + split; [by right|by eexists].
    + split.
      * intros [message Hm]. by destruct (getAccessToken_never_throws env ps message).
      * intros [->|?]; [done|lia].
Qed.

Example getBatchToken_501 :
  getBatchToken {| readKey := fun pem => Return pem; sign := fun _ _ => Return "jwt";
                   maxAttempts := 3; replies := fun _ => NoResponse |}
                {| clientId := "Iv1.abc"; privatePem := "pem"; installationId := 7 |}
                (replicate 501 "repo")
  = Throw "Batch exceeds 500 repos (got 501)".
Proof. vm_compute. reflexivity. Qed.

Lemma tokens_loop_entries (envs : nat -> Env) ps (batches : list (list string)) :
  (forall i, getAccessToken (envs i) ps <> Diverge) ->
  (forall b, b ∈ batches -> (1 <= length b <= 500)%nat) ->
  forall (i : nat) out,
  exists res,
    tokens_loop envs ps batches i out = Return (out ++ res)
    /\ length res = length batches
    /\ forall (k : nat) b,
         batches !! k = Some b ->
         exists tok,
           res !! k = Some {| batchIndex := i + k; size := length b; payload := tok |}
           /\ getAccessToken (envs (i + k)%nat) ps = Return tok.
Proof.
  intros Hret. induction batches as [|b rest IH]; intros Hsizes i out; simpl.
  - exists []. by rewrite app_nil_r.
  - assert (1 <= length b <= 500)%nat as Hb by (apply Hsizes, list_elem_of_here).
    unfold getBatchToken.
    destruct (Nat.eqb_spec (length b) 0); [lia|].
    destruct (Nat.ltb_spec 500 (length b)); [lia|].
    destruct (getAccessToken (envs i) ps) as [tok|e|] eqn:Htok; simpl.
    + destruct (IH (fun b' Hb' => Hsizes b' (list_elem_of_further _ _ _ Hb')) (S i)
                  (out ++ [{| batchIndex := i; size := length b; payload := tok |}]))
        as (res & Hres & Hlen & Hentries).
      exists ({| batchIndex := i; size := length b; payload := tok |} :: res).
      split_and!.
      * rewrite Hres. by rewrite <- app_assoc.
      * simpl. by rewrite Hlen.
      * intros [|k] b' Hk; simpl in *.
        -- injection Hk as <-. exists tok. by rewrite Nat.add_0_r.
        -- destruct (Hentries k b' Hk) as (tok' & Hk' & Htok').
           exists tok'. by rewrite <- Nat.add_succ_comm.
    + by destruct (getAccessToken_never_throws (envs i) ps e).
    + by destruct (Hret i).
Qed.

(** [getAllBatchTokens] does not reject, whatever the provider answers:
    the batches it builds are never empty and never exceed 500.  When
    every request comes back, it returns one entry per batch of the
    partition, in order; entry [i] carries [batchIndex = i], the size of
    batch [i] and what [getAccessToken] resolved with for it. *)
Theorem getAllBatchTokens_one_entry_per_batch
    (envs : nat -> Env) ps (sortedRepos : list string) :
  (forall i, getAccessToken (envs i) ps <> Diverge) ->
  exists batches out,
    chunk sortedRepos 500 = Return batches
    /\ getAllBatchTokens envs ps sortedRepos = Return out
    /\ length out = length batches
    /\ forall (i : nat) subset,
         batches !! i = Some subset ->
         exists tok,
           out !! i = Some {| batchIndex := i; size := length subset; payload := tok |}
           /\ getAccessToken (envs i) ps = Return tok.
Proof.
  intros Hret.
  destruct (chunk_spec sortedRepos 500 ltac:(lia)) as (batches & Hchunk & Hl & _).
  assert (Hsizes : forall b, b ∈ batches -> (1 <= length b <= 500)%nat).
  { intros b [k Hk]%list_elem_of_lookup_1. rewrite Hl in Hk.
    case_decide; [|done]. injection Hk as <-.
    pose proof (slice_length sortedRepos (Z.of_nat k * 500) (Z.of_nat k * 500 + 500)
                  ltac:(lia) ltac:(lia)). lia. }
  destruct (tokens_loop_entries envs ps batches Hret Hsizes 0 [])
    as (res & Hres & Hlen & Hentries).
  exists batches, res. unfold getAllBatchTokens. rewrite Hchunk. simpl.
  split_and!; done.
Qed.

Lemma getAllBatchTokens_one_entry_per_batch_witness :
  exists batches out,
    chunk ["a"; "b"; "c"] 500 = Return batches
    /\ getAllBatchTokens
         (fun _ => {| readKey := fun pem => Return pem;
                      sign := fun _ _ => Return "jwt";
                      maxAttempts := 3;
                      replies := fun _ => Status 404 {| token := ""; expires_at := "" |} |})
         {| clientId := "Iv1.abc"; privatePem := "pem"; installationId := 7 |}
         ["a"; "b"; "c"]
       = Return out
    /\ length out = length batches.
Proof.
  destruct (getAllBatchTokens_one_entry_per_batch
              (fun _ => {| readKey := fun pem => Return pem;
                           sign := fun _ _ => Return "jwt";
                           maxAttempts := 3;
                           replies := fun _ => Status 404 {| token := ""; expires_at := "" |} |})
              {| clientId := "Iv1.abc"; privatePem := "pem"; installationId := 7 |}
              ["a"; "b"; "c"])
    as (batches & out & Hc & Hout & Hlen & _).
  - intros i. vm_compute. discriminate.
  - exists batches, out. split; [exact Hc|]. split; [exact Hout|exact Hlen].
Defined.

End BatchTokenRequests.
